(** * mstd_memory: exclusive owners and raw-memory algorithms

    A shallow embedding of the [unique_ptr] backport and of the C++17
    uninitialized-range algorithms of [<mstd_memory>].

    Owners are C++ objects that are passed by reference and may alias
    (as in [o = std::move(o)]), so they live in a store indexed by object
    identity; member functions are computations of a small state-and-failure
    monad over that store.  Every call of a deleter is appended to a log. *)

From stdpp Require Import gmap list list_numbers.
From Equations Require Import Equations.

(** * Types, as far as the owner templates inspect them *)

Inductive ctype :=
| Scalar                              (* int, T*, ...: no constructor code *)
| Class (name : nat)                  (* class with a user-provided default constructor *)
| ArrayN (bound : positive) (elem : ctype)   (* U[N] *)
| ArrayU (elem : ctype).              (* U[] *)

(** The three traits used by [make_unique], with their standard meaning. *)
Definition is_array (t : ctype) : bool :=
  match t with ArrayN _ _ | ArrayU _ => true | _ => false end.

Definition extent (t : ctype) : N :=
  match t with ArrayN n _ => Npos n | _ => 0%N end.

Definition remove_extent (t : ctype) : ctype :=
  match t with ArrayN _ e | ArrayU e => e | _ => t end.

(** * Addresses *)

Abbreviation pointer := N (only parsing).
Definition nullptr : pointer := 0%N.

(** [if (p)] on a pointer. *)
Definition to_bool (p : pointer) : bool := negb (p =? nullptr)%N.

(** * Deleters

    The owner only moves its deleter around and calls it.  What a move
    leaves behind in the object moved from, and what [d = std::move(d)]
    leaves in [d], is up to the deleter type. *)

Class Deleter (D : Type) := {
  moved_from : D -> D;
  self_moved : D -> D
}.

(** [default_delete<T>] and [default_delete<T[]>]: empty classes with
    defaulted special members; the call is [delete ptr] for the first and
    [delete[] ptr] for the second. *)
Inductive default_delete : ctype -> Type :=
| DefaultDelete (t : ctype) : default_delete t.

#[global] Instance default_delete_deleter t : Deleter (default_delete t) :=
  {| moved_from d := d; self_moved d := d |}.

(** A deleter that is a function pointer, given by its address. *)
#[global] Instance fnptr_deleter : Deleter N :=
  {| moved_from d := d; self_moved d := d |}.

(** * The owner object: [deleter_store<D>] base, then [ptr_] *)

Record unique_ptr (T : ctype) (D : Type) := UniquePtr {
  deleter_store : D;
  ptr_ : pointer
}.
Arguments UniquePtr {T D}.
Arguments deleter_store {T D}.
Arguments ptr_ {T D}.

(** Object identities. *)
Abbreviation ref := nat (only parsing).

Record world (T : ctype) (D : Type) := World {
  owners : gmap nat (unique_ptr T D);   (* the live owner objects *)
  calls : list (D * pointer)            (* deleter calls so far, oldest first *)
}.
Arguments World {T D}.
Arguments owners {T D}.
Arguments calls {T D}.

(** Addresses a deleter has been called on, oldest first. *)
Definition deleted {T D} (w : world T D) : list pointer := (calls w).*2.

(** How often a deleter has been called on [a]. *)
Definition times_deleted {T D} (a : pointer) (w : world T D) : nat :=
  length (filter (λ c, c.2 = a) (calls w)).

Definition M (T : ctype) (D A : Type) : Type := world T D -> option (A * world T D).

#[global] Instance M_ret {T D} : MRet (M T D) := λ A a w, Some (a, w).
#[global] Instance M_bind {T D} : MBind (M T D) :=
  λ A B k c w, match c w with Some (a, w') => k a w' | None => None end.

(** The primary template [unique_ptr<T, D>] and the specialization
    [unique_ptr<T[], D>] give the members below the same bodies; the
    element type [T] of the object tells the two apart. *)

Module Owner.
Section owner.
Context {T : ctype} {D : Type} `{Deleter D}.

Local Abbreviation M := (M T D).

(** ** Access to the members of an object *)

(** Using an object that does not exist has no meaning. *)
Definition obj (this : ref) : M (unique_ptr T D) :=
  λ w, match owners w !! this with Some u => Some (u, w) | None => None end.

Definition put (this : ref) (u : unique_ptr T D) : M unit :=
  λ w, Some (tt, World (<[this := u]> (owners w)) (calls w)).

(** [std::exchange(ptr_, new_value)] *)
Definition exchange_ptr (this : ref) (new_value : pointer) : M pointer :=
  u ← obj this;
  put this (UniquePtr (deleter_store u) new_value);;
  mret (ptr_ u).

(** [ptr_ = p] *)
Definition set_ptr (this : ref) (p : pointer) : M unit :=
  u ← obj this; put this (UniquePtr (deleter_store u) p).

Definition get_deleter (this : ref) : M D :=
  u ← obj this; mret (deleter_store u).

Definition set_deleter (this : ref) (d : D) : M unit :=
  u ← obj this; put this (UniquePtr d (ptr_ u)).

(** [d(p)] *)
Definition call (d : D) (p : pointer) : M unit :=
  λ w, Some (tt, World (owners w) (calls w ++ [(d, p)])).

(** Storage for a new object; [this] must not name a live one. *)
Definition create (this : ref) (u : unique_ptr T D) : M unit :=
  λ w, match owners w !! this with
       | Some _ => None
       | None => Some (tt, World (<[this := u]> (owners w)) (calls w))
       end.

(** End of the object's lifetime. *)
Definition discard (this : ref) : M unit :=
  λ w, Some (tt, World (delete this (owners w)) (calls w)).

(** ** Constructors and destructor *)

(** [unique_ptr(pointer ptr, const D &d)] *)
Definition construct (this : ref) (ptr : pointer) (d : D) : M unit :=
  create this (UniquePtr d ptr).

(** [unique_ptr(unique_ptr &&u)]: the base is built from
    [forward<D>(u.get_deleter())], then [ptr_(u.ptr_)], then the body
    [u.ptr_ = nullptr]. *)
Definition move_construct (this u : ref) : M unit :=
  d ← get_deleter u;
  set_deleter u (moved_from d);;
  src ← obj u;
  create this (UniquePtr d (ptr_ src));;
  set_ptr u nullptr.

(** [~unique_ptr()] *)
Definition destroy (this : ref) : M unit :=
  u ← obj this;
  (if to_bool (ptr_ u) then call (deleter_store u) (ptr_ u) else mret tt);;
  discard this.

(** ** Observers *)

Definition get (this : ref) : M pointer :=
  u ← obj this; mret (ptr_ u).

Definition operator_bool (this : ref) : M bool :=
  u ← obj this; mret (to_bool (ptr_ u)).

(** ** Modifiers *)

Definition release (this : ref) : M pointer :=
  exchange_ptr this nullptr.

Definition reset (this : ref) (ptr : pointer) : M unit :=
  old ← exchange_ptr this ptr;
  if to_bool old then d ← get_deleter this; call d old else mret tt.

(** [std::swap] on the deleters, then on the addresses: whether or not
    the two objects are the same one, each ends with the other's value. *)
Definition swap (this other : ref) : M unit :=
  u ← obj this;
  v ← obj other;
  put this v;;
  put other u.

(** [this->get_deleter() = std::forward<D>(r.get_deleter())] *)
Definition assign_deleter (this r : ref) : M unit :=
  if decide (this = r) then
    d ← get_deleter this; set_deleter this (self_moved d)
  else
    d ← get_deleter r;
    set_deleter this d;;
    set_deleter r (moved_from d).

(** [operator=(unique_ptr &&r)]; the argument [r.release()] is evaluated
    before [reset] is entered. *)
Definition move_assign (this r : ref) : M unit :=
  p ← release r;
  reset this p;;
  assign_deleter this r.

(** [operator=(nullptr_t)] *)
Definition assign_null (this : ref) : M unit :=
  reset this nullptr.

(** [swap(lhs, rhs)] outside the class. *)
Definition free_swap (lhs rhs : ref) : M unit :=
  swap lhs rhs.

(** ** Programs over owners

    The operations a caller can apply to owner objects, for statements
    about whole runs. *)

Inductive op :=
| Construct (this : ref) (ptr : pointer) (d : D)
| MoveConstruct (this u : ref)
| MoveAssign (this r : ref)
| AssignNull (this : ref)
| Release (this : ref)
| Reset (this : ref) (ptr : pointer)
| Swap (this other : ref)
| Destroy (this : ref).

Definition exec (o : op) : M unit :=
  match o with
  | Construct this ptr d => construct this ptr d
  | MoveConstruct this u => move_construct this u
  | MoveAssign this r => move_assign this r
  | AssignNull this => assign_null this
  | Release this => (release this;; mret tt)
  | Reset this ptr => reset this ptr
  | Swap this other => swap this other
  | Destroy this => destroy this
  end.

Fixpoint run (ops : list op) : M unit :=
  match ops with
  | [] => mret tt
  | o :: rest => exec o;; run rest
  end.

(** No live owner holds [a] and no deleter has been called on it. *)
Definition unowned (a : pointer) (w : world T D) : Prop :=
  map_Forall (λ _ u, ptr_ u ≠ a) (owners w) ∧ a ∉ deleted w.

(** The caller's side of exclusive ownership: a raw address given to an
    owner is null or unowned. *)
Definition hands_over (o : op) (w : world T D) : bool :=
  match o with
  | Construct _ ptr _ | Reset _ ptr => bool_decide (ptr = nullptr ∨ unowned ptr w)
  | _ => true
  end.

Fixpoint disciplined (ops : list op) (w : world T D) : Prop :=
  match ops with
  | [] => True
  | o :: rest =>
      hands_over o w = true ∧
      match exec o w with
      | Some (_, w') => disciplined rest w'
      | None => False
      end
  end.

(** Exclusive ownership as a property of a state: no address was deleted
    twice, no live owner holds a deleted address, and no two live owners
    hold the same address. *)
Definition exclusive (w : world T D) : Prop :=
  NoDup (deleted w) ∧
  (∀ i u, owners w !! i = Some u → ptr_ u ≠ nullptr → ptr_ u ∉ deleted w) ∧
  (∀ i j u v, owners w !! i = Some u → owners w !! j = Some v →
              i ≠ j → ptr_ u ≠ nullptr → ptr_ u ≠ ptr_ v).

End owner.
End Owner.

(** * Comparison of owners *)

Module Compare.

(** [x.get()] on an owner passed by reference to const. *)
Definition get {T : ctype} {D : Type} (x : unique_ptr T D) : pointer := ptr_ x.

Section compare.
Context {T1 T2 : ctype} {D1 D2 : Type}.

(** Addresses are kept in the representation both pointer types convert
    to, so [std::less<CT>] is the order of that representation. *)
Definition less (a b : pointer) : bool := (a <? b)%N.

Definition operator_eq (x : unique_ptr T1 D1) (y : unique_ptr T2 D2) : bool :=
  (get x =? get y)%N.

Definition operator_ne (x : unique_ptr T1 D1) (y : unique_ptr T2 D2) : bool :=
  negb (get x =? get y)%N.

Definition operator_lt (x : unique_ptr T1 D1) (y : unique_ptr T2 D2) : bool :=
  less (get x) (get y).

End compare.

(** The other three go through [operator<], two of them with the
    operands exchanged. *)
Section derived.
Context {T1 T2 : ctype} {D1 D2 : Type}.

Definition operator_le (x : unique_ptr T1 D1) (y : unique_ptr T2 D2) : bool :=
  negb (operator_lt y x).

Definition operator_gt (x : unique_ptr T1 D1) (y : unique_ptr T2 D2) : bool :=
  operator_lt y x.

Definition operator_ge (x : unique_ptr T1 D1) (y : unique_ptr T2 D2) : bool :=
  negb (operator_lt x y).

End derived.
(** Comparison of an owner with [nullptr], on either side. *)
Section against_null.
Context {T : ctype} {D : Type}.

(** [explicit operator bool() const] *)
Definition operator_bool (x : unique_ptr T D) : bool := to_bool (ptr_ x).

Definition operator_eq_null (x : unique_ptr T D) : bool := negb (operator_bool x).
Definition operator_null_eq (x : unique_ptr T D) : bool := negb (operator_bool x).
Definition operator_ne_null (x : unique_ptr T D) : bool := operator_bool x.
Definition operator_null_ne (x : unique_ptr T D) : bool := operator_bool x.

(** [less<pointer>()(x.get(), nullptr)] and [less<pointer>()(nullptr, x.get())] *)
Definition operator_lt_null (x : unique_ptr T D) : bool := less (get x) nullptr.
Definition operator_null_lt (x : unique_ptr T D) : bool := less nullptr (get x).

(** [x > nullptr] is [nullptr < x], [nullptr > x] is [x < nullptr]. *)
Definition operator_gt_null (x : unique_ptr T D) : bool := operator_null_lt x.
Definition operator_null_gt (x : unique_ptr T D) : bool := operator_lt_null x.

Definition operator_le_null (x : unique_ptr T D) : bool := negb (operator_null_lt x).
Definition operator_null_le (x : unique_ptr T D) : bool := negb (operator_lt_null x).
Definition operator_ge_null (x : unique_ptr T D) : bool := negb (operator_lt_null x).
Definition operator_null_ge (x : unique_ptr T D) : bool := negb (operator_null_lt x).

End against_null.

End Compare.

(** * Creation of array owners *)

Module Factory.

(** What storage holds after an initialization. *)
Inductive object :=
| Indeterminate                 (* a scalar that was never written *)
| Value (z : Z)                 (* a scalar *)
| Constructed (name : nat)      (* what the default constructor of a class builds *)
| Elems (l : list object).      (* an array *)

(** [new U[n]]: scalars are left alone. *)
Fixpoint default_init (t : ctype) : object :=
  match t with
  | Scalar => Indeterminate
  | Class c => Constructed c
  | ArrayN n e => Elems (replicate (Pos.to_nat n) (default_init e))
  | ArrayU _ => Elems []
  end.

(** [new U[n]()]: scalars are zeroed. *)
Fixpoint value_init (t : ctype) : object :=
  match t with
  | Scalar => Value 0
  | Class c => Constructed c
  | ArrayN n e => Elems (replicate (Pos.to_nat n) (value_init e))
  | ArrayU _ => Elems []
  end.

(** The arrays on the free store, by address. *)
Abbreviation heap := (gmap N (list object)) (only parsing).

(** ** On a host that never refuses

    [new U[size]()] where the allocator succeeds: some address that is
    not null and not in use. *)
Definition new_array_value (elem : ctype) (size : N) (h : heap) : pointer * heap :=
  let p := fresh ({[nullptr]} ∪ dom h) in
  (p, <[p := replicate (N.to_nat size) (value_init elem)]> h).

(** [make_unique<T>(size_t size)]; [None] where [enable_if_t] removes the
    overload. *)
Definition make_unique (T : ctype) (size : N) (h : heap)
  : option (unique_ptr T (default_delete T) * heap) :=
  if is_array T && (extent T =? 0)%N then
    let '(p, h') := new_array_value (remove_extent T) size h in
    Some (UniquePtr (DefaultDelete T) p, h')
  else None.

(** ** With the host's allocator

    [new U[size]()] asks the host for the storage of [size] elements, and
    the host can refuse, as it does for a size it has no room for: the
    allocation function then throws (on a target built without
    exceptions, stops the program), nothing is initialized and
    [make_unique] returns nothing.  The allocator is a parameter: [None]
    is a refusal, [Some p] the address of the storage it hands out. *)
Abbreviation allocator := (ctype → N → gmap N (list object) → option pointer)
  (only parsing).

(** What is asked of an allocation function that returns: the address is
    not null and not that of an array that is still allocated. *)
Definition conforming (operator_new : allocator) : Prop :=
  ∀ elem size h p,
    operator_new elem size h = Some p → p ≠ nullptr ∧ h !! p = None.

(** How a call of [make_unique<T>(size)] ends. *)
Inductive made (T : ctype) :=
| Disabled                    (* [enable_if_t] removes the overload *)
| BadAlloc                    (* the allocation was refused *)
| Made (u : unique_ptr T (default_delete T)) (h : gmap N (list object)).
Arguments Disabled {T}.
Arguments BadAlloc {T}.
Arguments Made {T}.

Module Hosted.
Section host.

Variable operator_new : allocator.

(** [new U[size]()]: the storage is asked for first; the elements are
    value-initialized only when it is there. *)
Definition new_array_value (elem : ctype) (size : N) (h : heap)
  : option (pointer * heap) :=
  match operator_new elem size h with
  | Some p => Some (p, <[p := replicate (N.to_nat size) (value_init elem)]> h)
  | None => None
  end.

(** [make_unique<T>(size_t size)] *)
Definition make_unique (T : ctype) (size : N) (h : heap) : made T :=
  if is_array T && (extent T =? 0)%N then
    match new_array_value (remove_extent T) size h with
    | Some (p, h') => Made (UniquePtr (DefaultDelete T) p) h'
    | None => BadAlloc
    end
  else Disabled.

End host.
End Hosted.

(** The host of the first two definitions: it hands out the least address
    that is not null and not in use, whatever the size. *)
Definition unbounded : allocator :=
  λ _ _ h, Some (fresh ({[nullptr]} ∪ dom h)).




End Factory.

(** * Algorithms on uninitialized ranges

    Iterators are positions in a flat memory of slots; a slot with no entry
    holds no live value.  Positions and counts are mathematical integers:
    the definitions are the code's on ranges whose end is not before
    their start and on counts that are not negative, where no iterator
    and no count wraps around; nothing is stated outside of these. *)

Module mstd.

Inductive event :=
| Construct (p : Z)    (* a placement new at slot p *)
| Teardown (p : Z).    (* a destructor call at slot p *)

#[global] Instance event_eq_dec : EqDecision event.
Proof. solve_decision. Defined.

(** How often slot [p] is constructed, and torn down, in a log. *)
Definition constructions (p : Z) (l : list event) : nat :=
  length (filter (λ e, e = Construct p) l).

Definition teardowns (p : Z) (l : list event) : nat :=
  length (filter (λ e, e = Teardown p) l).

Record memory (V : Type) := Memory {
  slots : gmap Z V;
  log : list event
}.
Arguments Memory {V}.
Arguments slots {V}.
Arguments log {V}.

Inductive outcome (A : Type) :=
| Done (a : A)
| Undefined      (* a value was read from a slot that holds none *)
| Timeout.       (* the loop was still running when the fuel ran out *)
Arguments Done {A}.
Arguments Undefined {A}.
Arguments Timeout {A}.

(** What a move algorithm hands back: one iterator, or a [std::pair] of
    two. *)
Inductive returned :=
| Iter (it : Z)
| IterPair (it1 it2 : Z).

Section algorithms.
Context {V : Type}.
(** What a move out of a value of the element type leaves behind. *)
Context (moved : V -> V).

(** [::new (addressof( *result)) value_type(std::move( *first))] *)
Definition construct_from (result first : Z) (m : memory V) : option (memory V) :=
  match slots m !! first with
  | None => None
  | Some v =>
      Some (Memory (<[result := v]> (<[first := moved v]> (slots m)))
                   (log m ++ [Construct result]))
  end.

(** [for (; first != last; ++result, ++first)] need not come to an end;
    [fuel] bounds the number of iterations that are run. *)
Fixpoint uninitialized_move (fuel : nat) (first last result : Z) (m : memory V)
  : outcome (returned * memory V) :=
  if decide (first ≠ last) then
    match fuel with
    | O => Timeout
    | S fuel' =>
        match construct_from result first m with
        | None => Undefined
        | Some m' => uninitialized_move fuel' (first + 1) last (result + 1) m'
        end
    end
  else Done (Iter result, m).

(** [for (; n > 0; ++result, ++first, --n)] *)
Equations? uninitialized_move_n (first n result : Z) (m : memory V)
  : outcome (returned * memory V) by wf (Z.to_nat n) lt :=
  uninitialized_move_n first n result m with decide (n > 0)%Z => {
    | left _ with construct_from result first m => {
        | None := Undefined
        | Some m' := uninitialized_move_n (first + 1) (n - 1) (result + 1) m' }
    | right _ := Done (IterPair first result, m) }.
Proof. lia. Qed.

(** [location->~T()] *)
Definition destroy_at (location : Z) (m : memory V) : memory V :=
  Memory (delete location (slots m)) (log m ++ [Teardown location]).

(** [for (; first != last; ++first)], with fuel as above. *)
Fixpoint destroy (fuel : nat) (first last : Z) (m : memory V) : outcome (memory V) :=
  if decide (first ≠ last) then
    match fuel with
    | O => Timeout
    | S fuel' => destroy fuel' (first + 1) last (destroy_at first m)
    end
  else Done m.

(** [for (; n > 0; ++first, --n)] *)
Equations? destroy_n (first n : Z) (m : memory V) : Z * memory V
  by wf (Z.to_nat n) lt :=
  destroy_n first n m with decide (n > 0)%Z => {
    | left _ := destroy_n (first + 1) (n - 1) (destroy_at first m)
    | right _ := (first, m) }.
Proof. lia. Qed.

End algorithms.

Section copying.
Context {V : Type}.

(** [::new (addressof( *result)) value_type( *first)] *)
Definition copy_from (result first : Z) (m : memory V) : option (memory V) :=
  match slots m !! first with
  | None => None
  | Some v => Some (Memory (<[result := v]> (slots m)) (log m ++ [Construct result]))
  end.

(** [for (; n > 0; ++result, ++first, --n)] *)
Equations? uninitialized_copy_n (first n result : Z) (m : memory V)
  : outcome (Z * memory V) by wf (Z.to_nat n) lt :=
  uninitialized_copy_n first n result m with decide (n > 0)%Z => {
    | left _ with copy_from result first m => {
        | None := Undefined
        | Some m' := uninitialized_copy_n (first + 1) (n - 1) (result + 1) m' }
    | right _ := Done (result, m) }.
Proof. lia. Qed.

End copying.

Section construction.
Context {V : Type}.
(** What [new (p) T] and [new (p) T()] leave in a slot. *)
Context (default_initialized value_initialized : V).

(** A placement new that reads nothing. *)
Definition construct_with (v : V) (p : Z) (m : memory V) : memory V :=
  Memory (<[p := v]> (slots m)) (log m ++ [Construct p]).

(** [for (; first != last; ++first)] *)
Fixpoint uninitialized_default_construct (fuel : nat) (first last : Z) (m : memory V)
  : outcome (memory V) :=
  if decide (first ≠ last) then
    match fuel with
    | O => Timeout
    | S fuel' =>
        uninitialized_default_construct fuel' (first + 1) last
          (construct_with default_initialized first m)
    end
  else Done m.

(** [for (; n; ++first, --n)]: the count is tested against zero, so the
    loop takes fuel as well. *)
Fixpoint uninitialized_default_construct_n (fuel : nat) (first n : Z) (m : memory V)
  : outcome (Z * memory V) :=
  if decide (n ≠ 0)%Z then
    match fuel with
    | O => Timeout
    | S fuel' =>
        uninitialized_default_construct_n fuel' (first + 1) (n - 1)
          (construct_with default_initialized first m)
    end
  else Done (first, m).

Fixpoint uninitialized_value_construct (fuel : nat) (first last : Z) (m : memory V)
  : outcome (memory V) :=
  if decide (first ≠ last) then
    match fuel with
    | O => Timeout
    | S fuel' =>
        uninitialized_value_construct fuel' (first + 1) last
          (construct_with value_initialized first m)
    end
  else Done m.

Fixpoint uninitialized_value_construct_n (fuel : nat) (first n : Z) (m : memory V)
  : outcome (Z * memory V) :=
  if decide (n ≠ 0)%Z then
    match fuel with
    | O => Timeout
    | S fuel' =>
        uninitialized_value_construct_n fuel' (first + 1) (n - 1)
          (construct_with value_initialized first m)
    end
  else Done (first, m).

End construction.

End mstd.

(** * [std::align]

    [uintptr_t] and [size_t] are the 32-bit unsigned types of the ARM C 5
    target; every operation wraps. *)

Module Align.

Local Open Scope Z_scope.

Definition bits : Z := 32.

Definition wrap (z : Z) : Z := z mod 2 ^ bits.

(** [~z] on a [size_t]. *)
Definition complement (z : Z) : Z := wrap (Z.lnot z).

(** The value returned and the two arguments passed by reference, as the
    call leaves them. *)
Record aligned := Aligned {
  result : Z;
  ptr : Z;
  space : Z
}.

Definition align (alignment size ptr space : Z) : aligned :=
  let addr := ptr in
  let new_addr := Z.land (wrap (addr + wrap (alignment - 1)))
                         (complement (wrap (alignment - 1))) in
  let pad := wrap (new_addr - addr) in
  if wrap (pad + size) <=? space then
    Aligned new_addr new_addr (wrap (space - pad))
  else
    Aligned 0 ptr space.

End Align.

(** * Activity 1: record a sequence of LED colours and play it back

    The globals of [main.cpp] and the two callback registrations are the
    state; an [int] operation that overflows, or an access outside [arr],
    has no meaning ([None]). *)

Module Activity1.

Local Open Scope Z_scope.

(** The functions that are passed as callbacks. *)
Inductive callback := OnButtonPress | OnButtonStopDebouncing.

Record board := Board {
  led1 : bool;
  led2 : bool;
  led3 : bool;
  t : Z;
  t2 : Z;
  n : Z;
  arr : list Z;                                (* int arr[5] *)
  button : option callback;                    (* attached by button.rise; NULL is None *)
  button_debounce_timeout : option callback    (* attached to the timeout, until it fires *)
}.

(** The state at the start of [main]: zeroed globals, LEDs off, nothing
    attached. *)
Definition power_on : board :=
  Board false false false 0 0 0 [0; 0; 0; 0; 0] None None.

Definition int_add (a b : Z) : option Z :=
  if decide (- 2 ^ 31 ≤ a + b < 2 ^ 31) then Some (a + b) else None.

Definition arr_read (i : Z) (s : board) : option Z :=
  if decide (0 ≤ i < 5) then arr s !! Z.to_nat i else None.

Definition arr_write (i v : Z) (s : board) : option (list Z) :=
  if decide (0 ≤ i < 5) then Some (<[Z.to_nat i := v]> (arr s)) else None.

Definition set_leds (a b c : bool) (s : board) : board :=
  Board a b c (t s) (t2 s) (n s) (arr s) (button s) (button_debounce_timeout s).

Definition select_led (l : Z) (s : board) : board :=
  if l =? 1 then set_leds true false false s
  else if l =? 2 then set_leds false true false s
  else if l =? 3 then set_leds false false true s
  else s.

Definition onButtonPress (s : board) : option board :=
  a ← arr_write (n s) (t s) s;
  n' ← int_add (n s) 1;
  Some (Board (led1 s) (led2 s) (led3 s) (t s) (t2 s) n' a
              None (Some OnButtonStopDebouncing)).

Definition onButtonStopDebouncing (s : board) : board :=
  Board (led1 s) (led2 s) (led3 s) (t s) (t2 s) (n s) (arr s)
        (Some OnButtonPress) (button_debounce_timeout s).

(** [%] on [int] truncates towards zero. *)
Definition onCycleTicker (s : board) : board :=
  let s' := select_led (t s) s in
  Board (led1 s') (led2 s') (led3 s') (Z.rem (t s) 3 + 1) (t2 s') (n s') (arr s')
        (button s') (button_debounce_timeout s').

Definition onCycleTickerPattern (s : board) : option board :=
  v ← arr_read (t s) s;
  let s' := select_led v s in
  t2' ← int_add (t2 s) 1;
  Some (Board (led1 s') (led2 s') (led3 s') (t s') (Z.rem t2' 5) (n s') (arr s')
              (button s') (button_debounce_timeout s')).

(** The first statement of [main]: [button.rise(onButtonPress)]. *)
Definition attach_button (s : board) : board :=
  Board (led1 s) (led2 s) (led3 s) (t s) (t2 s) (n s) (arr s)
        (Some OnButtonPress) (button_debounce_timeout s).

(** ** What the board does with the registrations

    A rising edge calls what [button.rise] attached last, if anything; the
    timeout calls what was attached to it, once. *)

Definition call (c : callback) (s : board) : option board :=
  match c with
  | OnButtonPress => onButtonPress s
  | OnButtonStopDebouncing => Some (onButtonStopDebouncing s)
  end.

Definition rising_edge (s : board) : option board :=
  match button s with
  | Some c => call c s
  | None => Some s
  end.

Definition timeout_expires (s : board) : option board :=
  match button_debounce_timeout s with
  | Some c =>
      call c (Board (led1 s) (led2 s) (led3 s) (t s) (t2 s) (n s) (arr s)
                    (button s) None)
  | None => Some s
  end.

(** ** The statements of the loops of [main]

    The button can interrupt [main] between any two of them. *)

(** [select_led(t)] *)
Definition cycle_show (s : board) : board := select_led (t s) s.

(** [t=(t%3)+1] *)
Definition cycle_advance (s : board) : board :=
  Board (led1 s) (led2 s) (led3 s) (Z.rem (t s) 3 + 1) (t2 s) (n s) (arr s)
        (button s) (button_debounce_timeout s).

(** [select_led(arr[t2])] *)
Definition play_show (s : board) : option board :=
  v ← arr_read (t2 s) s; Some (select_led v s).

(** [t2=(t2+1)%5] *)
Definition play_advance (s : board) : option board :=
  t2' ← int_add (t2 s) 1;
  Some (Board (led1 s) (led2 s) (led3 s) (t s) (Z.rem t2' 5) (n s) (arr s)
              (button s) (button_debounce_timeout s)).

Inductive event := Press | Expire | CycleShow | CycleAdvance | PlayShow | PlayAdvance.

Definition react (e : event) (s : board) : option board :=
  match e with
  | Press => rising_edge s
  | Expire => timeout_expires s
  | CycleShow => Some (cycle_show s)
  | CycleAdvance => Some (cycle_advance s)
  | PlayShow => play_show s
  | PlayAdvance => play_advance s
  end.

Fixpoint reacts (es : list event) (s : board) : option board :=
  match es with
  | [] => Some s
  | e :: es' =>
      match react e s with
      | Some s' => reacts es' s'
      | None => None
      end
  end.

(** ** What is looked at in the statements *)

Definition leds (s : board) : bool * bool * bool := (led1 s, led2 s, led3 s).

(** The number of LEDs that are on. *)
Definition lit (s : board) : nat :=
  (Nat.b2n (led1 s) + Nat.b2n (led2 s) + Nat.b2n (led3 s))%nat.

(** The ranges the globals stay in. *)
Definition in_range (s : board) : Prop :=
  0 ≤ t s ≤ 3 ∧ 0 ≤ t2 s < 5 ∧ 0 ≤ n s ≤ 5
  ∧ length (arr s) = 5%nat ∧ Forall (λ v, 0 ≤ v ≤ 3) (arr s)
  ∧ (lit s ≤ 1)%nat.

(** A press of the button that is taken, followed by the end of the
    debounce interval. *)
Definition press_and_settle : list event := [Press; Expire].

End Activity1.

(** * Small states to run the definitions on *)

Module Samples.

(** An owner of an [int[]] with the default deleter. *)
Definition array_owner (p : pointer)
  : unique_ptr (ArrayU Scalar) (default_delete (ArrayU Scalar)) :=
  UniquePtr (DefaultDelete (ArrayU Scalar)) p.

(** An owner of an [int] whose deleter is the function at address [f]. *)
Definition int_owner (f : N) (p : pointer) : unique_ptr Scalar N :=
  UniquePtr f p.

Definition one_array : world (ArrayU Scalar) (default_delete (ArrayU Scalar)) :=
  World {[ 0 := array_owner 5 ]} [].

Definition one_int : world Scalar N :=
  World {[ 0 := int_owner 100 5 ]} [].

Definition two_ints : world Scalar N :=
  World {[ 0 := int_owner 100 5; 1 := int_owner 200 6 ]} [].

Definition nothing : world Scalar N := World ∅ [].

Definition program : list (@Owner.op N) :=
  [ Owner.Construct 0 5%N 100%N;
    Owner.Construct 1 6%N 200%N;
    Owner.MoveConstruct 2 0;
    Owner.MoveAssign 1 2;
    Owner.MoveAssign 1 1;
    Owner.Swap 0 1;
    Owner.Release 1;
    Owner.Reset 1 7%N;
    Owner.AssignNull 0;
    Owner.Destroy 2;
    Owner.Destroy 1;
    Owner.Destroy 0 ].

(** Two live handles at slots 0 and 1; a moved-from handle is 0. *)
Definition handles : mstd.memory Z :=
  mstd.Memory {[ 0%Z := 7%Z; 1%Z := 8%Z ]} [].

Definition emptied (v : Z) : Z := 0%Z.

(** A host with room for arrays of up to 8 elements: it refuses a larger
    one, and hands out the least unused address for any other. *)
Definition small_host (elem : ctype) (size : N) (h : gmap N (list Factory.object))
  : option pointer :=
  if (size <=? 8)%N then Some (fresh ({[nullptr]} ∪ dom h)) else None.

(** The board after the cycle has gone to 2, a press, on to 3, a press,
    and on to 1: [arr] starts with 2 and 3, [t] is 1 and [t2] is 0. *)
Definition recorded : Activity1.board :=
  Activity1.Board false false false 1 0 2 [2; 3; 0; 0; 0]%Z
                  (Some Activity1.OnButtonPress) None.

End Samples.

(** * Facts about owners *)

Module OwnerFacts.
Import Owner.

(** Unfolds the monad and the accesses to members, down to lookups in
    the store. *)
Ltac reduce_members :=
  cbv beta iota; cbn [owners calls ptr_ deleter_store].

Ltac run_bind :=
  cbv [mbind M_bind mret M_ret obj put call create discard]; reduce_members.

(** Resolves the lookups of an object whose state is the hypothesis. *)
Ltac known Ho := repeat (rewrite Ho; reduce_members).

Section facts.
Context {T : ctype} {D : Type} `{Deleter D}.
Implicit Types (w : world T D) (u : unique_ptr T D) (o a b : ref) (p : pointer).

Lemma to_bool_true p : to_bool p = true ↔ p ≠ nullptr.
Proof. unfold to_bool, nullptr. rewrite negb_true_iff, N.eqb_neq. done. Qed.

Lemma to_bool_false p : to_bool p = false ↔ p = nullptr.
Proof. unfold to_bool, nullptr. rewrite negb_false_iff, N.eqb_eq. done. Qed.

Lemma times_deleted_app p w os (l : list (D * pointer)) :
  times_deleted p (World (T:=T) os (calls w ++ l))
  = times_deleted p w + length (filter (λ c, c.2 = p) l).
Proof. unfold times_deleted. simpl. by rewrite filter_app, length_app. Qed.

Lemma release_spec o u w :
  owners w !! o = Some u →
  release o w
  = Some (ptr_ u, World (<[o := UniquePtr (deleter_store u) nullptr]> (owners w)) (calls w)).
Proof. intros Ho. unfold release, exchange_ptr. run_bind. by rewrite Ho. Qed.

Lemma reset_spec o u p w :
  owners w !! o = Some u →
  reset o p w
  = Some (tt, World (<[o := UniquePtr (deleter_store u) p]> (owners w))
                    (calls w ++ if to_bool (ptr_ u) then [(deleter_store u, ptr_ u)] else [])).
Proof.
  intros Ho. unfold reset, exchange_ptr, get_deleter. run_bind.
  rewrite Ho. destruct (to_bool (ptr_ u)); run_bind.
  - by rewrite lookup_insert_eq.
  - by rewrite app_nil_r.
Qed.

Lemma destroy_spec o u w :
  owners w !! o = Some u →
  destroy o w
  = Some (tt, World (delete o (owners w))
                    (calls w ++ if to_bool (ptr_ u) then [(deleter_store u, ptr_ u)] else [])).
Proof.
  intros Ho. unfold destroy. run_bind. rewrite Ho.
  destruct (to_bool (ptr_ u)); run_bind; [done|]. by rewrite app_nil_r.
Qed.

(** C1: [x = o.release()] returns the address [o] held, leaves [o] empty
    and calls no deleter; destroying [o] afterwards calls no deleter
    either.  The element type [T] is any type, array or not. *)
Theorem release_hands_over o u w :
  owners w !! o = Some u →
  ∃ w', release o w = Some (ptr_ u, w')
    ∧ owners w' !! o = Some (UniquePtr (deleter_store u) nullptr)
    ∧ operator_bool o w' = Some (false, w')
    ∧ calls w' = calls w
    ∧ ∃ w'', destroy o w' = Some (tt, w'')
        ∧ calls w'' = calls w
        ∧ owners w'' !! o = None.
Proof.
  intros Ho. rewrite (release_spec _ _ _ Ho). eexists. split; [done|].
  cbn. rewrite lookup_insert_eq. repeat split.
  - unfold operator_bool. run_bind. by rewrite lookup_insert_eq.
  - erewrite destroy_spec; [|cbn; apply lookup_insert_eq].
    eexists. split; [done|]. cbn. rewrite app_nil_r, lookup_delete_eq. done.
Qed.

(** C2 (amended): [o.reset(a)] installs [a] and calls the stored deleter
    on the address held before, once if that address is not null and not
    at all if it is.  That call is the only one, so a deleter is called on
    [a] during the reset exactly when [a] is the non-null address [o]
    already held. *)
Theorem reset_installs_and_deletes_old o u p w :
  owners w !! o = Some u →
  ∃ w', reset o p w = Some (tt, w')
    ∧ owners w' !! o = Some (UniquePtr (deleter_store u) p)
    ∧ calls w' = calls w ++ (if to_bool (ptr_ u) then [(deleter_store u, ptr_ u)] else [])
    ∧ times_deleted (ptr_ u) w'
      = times_deleted (ptr_ u) w + (if to_bool (ptr_ u) then 1 else 0)
    ∧ times_deleted p w'
      = times_deleted p w + (if decide (ptr_ u ≠ nullptr ∧ p = ptr_ u) then 1 else 0).
Proof.
  intros Ho. rewrite (reset_spec _ _ _ _ Ho). eexists. split; [done|].
  cbn [owners calls]. rewrite lookup_insert_eq. do 2 (split; [done|]).
  rewrite !times_deleted_app.
  destruct (to_bool (ptr_ u)) eqn:Hb; cbn.
  - apply to_bool_true in Hb.
    rewrite decide_True by done. split; [done|].
    destruct (decide (ptr_ u = p)) as [<-|Hne].
    + by rewrite decide_True.
    + rewrite decide_False; [done|]. intros [_ Heq]. by apply Hne.
  - apply to_bool_false in Hb.
    rewrite decide_False; [done|]. intros [Hn _]. by apply Hn.
Qed.

Lemma assign_deleter_self o u w :
  owners w !! o = Some u →
  assign_deleter o o w
  = Some (tt, World (<[o := UniquePtr (self_moved (deleter_store u)) (ptr_ u)]> (owners w))
                    (calls w)).
Proof.
  intros Ho. unfold assign_deleter. rewrite decide_True by done.
  unfold get_deleter, set_deleter. run_bind. by known Ho.
Qed.

Lemma assign_deleter_other a b ua ub w :
  a ≠ b →
  owners w !! a = Some ua →
  owners w !! b = Some ub →
  assign_deleter b a w
  = Some (tt, World (<[a := UniquePtr (moved_from (deleter_store ua)) (ptr_ ua)]>
                       (<[b := UniquePtr (deleter_store ua) (ptr_ ub)]> (owners w)))
                    (calls w)).
Proof.
  intros Hne Ha Hb. unfold assign_deleter. rewrite decide_False by done.
  unfold get_deleter, set_deleter. run_bind. known Ha. known Hb.
  rewrite lookup_insert_ne by done. by known Ha.
Qed.

Lemma move_construct_spec a b ua w :
  owners w !! a = Some ua →
  owners w !! b = None →
  move_construct b a w
  = Some (tt, World (<[a := UniquePtr (moved_from (deleter_store ua)) nullptr]>
                       (<[b := UniquePtr (deleter_store ua) (ptr_ ua)]> (owners w)))
                    (calls w)).
Proof.
  intros Ha Hb. assert (a ≠ b) as Hne by congruence.
  unfold move_construct, get_deleter, set_deleter, set_ptr. run_bind.
  known Ha. rewrite lookup_insert_eq. reduce_members.
  rewrite lookup_insert_ne by done. known Hb.
  rewrite lookup_insert_ne by done. rewrite lookup_insert_eq. reduce_members.
  do 3 f_equal. apply map_eq. intros i.
  destruct (decide (i = a)) as [->|]; [by rewrite !lookup_insert_eq|].
  rewrite !(lookup_insert_ne _ a) by done.
  destruct (decide (i = b)) as [->|]; [by rewrite !lookup_insert_eq|].
  rewrite !(lookup_insert_ne _ b) by done. by rewrite lookup_insert_ne.
Qed.

Lemma move_assign_spec a b ua ub w :
  a ≠ b →
  owners w !! a = Some ua →
  owners w !! b = Some ub →
  move_assign b a w
  = Some (tt, World (<[a := UniquePtr (moved_from (deleter_store ua)) nullptr]>
                       (<[b := UniquePtr (deleter_store ua) (ptr_ ua)]> (owners w)))
                    (calls w ++ if to_bool (ptr_ ub) then [(deleter_store ub, ptr_ ub)] else [])).
Proof.
  intros Hne Ha Hb. unfold move_assign.
  cbv [mbind M_bind]. rewrite (release_spec _ _ _ Ha).
  erewrite reset_spec; [|cbn; by rewrite lookup_insert_ne].
  erewrite assign_deleter_other; [|done|cbn..].
  2: { rewrite lookup_insert_ne by done. apply lookup_insert_eq. }
  2: { apply lookup_insert_eq. }
  cbn. do 3 f_equal. apply map_eq. intros i.
  destruct (decide (i = a)) as [->|]; [by rewrite !lookup_insert_eq|].
  rewrite !(lookup_insert_ne _ a) by done.
  destruct (decide (i = b)) as [->|]; [by rewrite !lookup_insert_eq|].
  rewrite !(lookup_insert_ne _ b) by done. by rewrite lookup_insert_ne.
Qed.

(** C3: moving owner [a] into owner [b], by move construction of a new
    [b] or by move assignment to another, live [b], leaves [a] empty, leaves
    [b] with the address and the deleter [a] had ([a] keeps what the move
    of the deleter left behind), and calls no deleter on the address that
    changes hands; with exclusive ownership [b] did not already hold it. *)
Theorem move_transfers_ownership :
  (∀ a b ua w,
     owners w !! a = Some ua →
     owners w !! b = None →
     ∃ w', move_construct b a w = Some (tt, w')
       ∧ owners w' !! a = Some (UniquePtr (moved_from (deleter_store ua)) nullptr)
       ∧ owners w' !! b = Some (UniquePtr (deleter_store ua) (ptr_ ua))
       ∧ calls w' = calls w)
  ∧
  (∀ a b ua ub w,
     a ≠ b →
     owners w !! a = Some ua →
     owners w !! b = Some ub →
     (ptr_ ub = ptr_ ua → ptr_ ua = nullptr) →
     ∃ w', move_assign b a w = Some (tt, w')
       ∧ owners w' !! a = Some (UniquePtr (moved_from (deleter_store ua)) nullptr)
       ∧ owners w' !! b = Some (UniquePtr (deleter_store ua) (ptr_ ua))
       ∧ calls w' = calls w ++ (if to_bool (ptr_ ub) then [(deleter_store ub, ptr_ ub)] else [])
       ∧ times_deleted (ptr_ ua) w' = times_deleted (ptr_ ua) w).
Proof.
  split.
  - intros a b ua w Ha Hb. assert (a ≠ b) by congruence.
    rewrite (move_construct_spec _ _ _ _ Ha Hb). eexists. split; [done|].
    cbn. rewrite lookup_insert_eq, lookup_insert_ne, lookup_insert_eq by done. done.
  - intros a b ua ub w Hne Ha Hb Hex.
    rewrite (move_assign_spec _ _ _ _ _ Hne Ha Hb). eexists. split; [done|].
    cbn [owners calls].
    rewrite lookup_insert_eq, lookup_insert_ne, lookup_insert_eq by done.
    do 3 (split; [done|]).
    rewrite times_deleted_app.
    destruct (to_bool (ptr_ ub)) eqn:Hnull; cbn; [|lia].
    apply to_bool_true in Hnull.
    rewrite decide_False; [cbn; lia|]. intros Heq. apply Hnull.
    rewrite Heq. apply Hex. done.
Qed.

Lemma move_assign_self_spec o u w :
  owners w !! o = Some u →
  move_assign o o w
  = Some (tt, World (<[o := UniquePtr (self_moved (deleter_store u)) (ptr_ u)]> (owners w))
                    (calls w)).
Proof.
  intros Ho. unfold move_assign. cbv [mbind M_bind].
  rewrite (release_spec _ _ _ Ho).
  erewrite reset_spec; [|cbn; apply lookup_insert_eq].
  erewrite assign_deleter_self; [|cbn; apply lookup_insert_eq].
  cbn. by rewrite app_nil_r, !insert_insert_eq.
Qed.

Lemma swap_spec a b ua ub w :
  owners w !! a = Some ua →
  owners w !! b = Some ub →
  swap a b w = Some (tt, World (<[b := ua]> (<[a := ub]> (owners w))) (calls w)).
Proof. intros Ha Hb. unfold swap. run_bind. known Ha. by known Hb. Qed.

(** A member function called on an object that is not there fails. *)
Lemma missing_object o w :
  owners w !! o = None →
  release o w = None ∧ (∀ p, reset o p w = None) ∧ destroy o w = None
  ∧ (∀ b, swap o b w = None) ∧ (∀ b, swap b o w = None)
  ∧ (∀ b, move_construct b o w = None) ∧ (∀ b, move_assign b o w = None)
  ∧ (∀ a, move_assign o a w = None).
Proof.
  intros Ho. repeat split; intros;
    unfold release, reset, destroy, swap, move_construct, move_assign,
      release, reset, exchange_ptr, get_deleter, set_deleter, set_ptr;
    run_bind; known Ho; try done.
  - destruct (owners w !! b); reduce_members; [by known Ho|done].
  - destruct (owners w !! a) as [ua|] eqn:Ha; reduce_members; [|done].
    destruct (decide (a = o)) as [->|Hne]; [congruence|].
    rewrite lookup_insert_ne by done. by known Ho.
Qed.

(** C10: [o = std::move(o)] leaves [o] with the address it held and calls
    no deleter: [release] has emptied [o] by the time [reset] looks at the
    old address.  The deleter has gone through its own self-assignment and
    nothing else; where that is the identity, as for [default_delete],
    the whole state is as before. *)
Theorem self_move_assign_harmless o u w :
  owners w !! o = Some u →
  ∃ w', move_assign o o w = Some (tt, w')
    ∧ owners w' !! o = Some (UniquePtr (self_moved (deleter_store u)) (ptr_ u))
    ∧ calls w' = calls w
    ∧ (∀ j, j ≠ o → owners w' !! j = owners w !! j)
    ∧ (self_moved (deleter_store u) = deleter_store u → w' = w).
Proof.
  intros Ho. rewrite (move_assign_self_spec _ _ _ Ho).
  eexists. split; [done|]. cbn.
  rewrite lookup_insert_eq. do 2 (split; [done|]). split.
  - intros j Hj. by rewrite lookup_insert_ne.
  - intros ->. destruct w as [ow cw]. cbn in *. f_equal.
    apply insert_id. by destruct u.
Qed.

(** ** Exclusive ownership along runs *)

Lemma times_deleted_NoDup p w : NoDup (deleted w) → times_deleted p w ≤ 1.
Proof.
  unfold deleted, times_deleted. induction (calls w) as [|[d q] cs IH]; cbn; [lia|].
  rewrite NoDup_cons. intros [Hq Hnd].
  destruct (decide (q = p)) as [->|]; [|by apply IH].
  remember (filter _ cs) as l eqn:Hl. destruct l as [|[d' q'] l]; [cbn; lia|].
  exfalso. apply Hq. apply list_elem_of_fmap. exists (d', q').
  assert ((d', q') ∈ filter (λ c : D * N, c.2 = p) cs) as Hin
    by (rewrite <- Hl; left).
  apply list_elem_of_filter in Hin as [Hp Hin]. by cbn in Hp.
Qed.

Ltac split_lookups :=
  repeat match goal with
  | H : <[_ := _]> _ !! _ = Some _ |- _ =>
      apply lookup_insert_Some in H; destruct H as [[? ?]|[? H]]
  | H : delete _ _ !! _ = Some _ |- _ =>
      apply lookup_delete_Some in H; destruct H as [? H]
  end; simplify_eq/=.

(** The address part of a state change: [dl] is what the change deletes
    (the non-null address some owner held), and every address held
    afterwards was held before by an owner of its own, or was unowned. *)
Lemma exclusive_step w os' (dl : list (D * pointer)) :
  exclusive w →
  (∀ d p, (d, p) ∈ dl → dl = [(d, p)] ∧ p ≠ nullptr ∧ ∃ i u, owners w !! i = Some u ∧ ptr_ u = p) →
  (∀ i u, os' !! i = Some u → ptr_ u ≠ nullptr →
     ((∃ j v, owners w !! j = Some v ∧ ptr_ v = ptr_ u) ∨ unowned (ptr_ u) w)
     ∧ ptr_ u ∉ dl.*2) →
  (∀ i j u v, os' !! i = Some u → os' !! j = Some v → i ≠ j →
     ptr_ u ≠ nullptr → ptr_ u ≠ ptr_ v) →
  exclusive (World os' (calls w ++ dl)).
Proof.
  intros (Hnd & Hdel & Hpair) Hdl Hheld Hdist. split; [|split]; [| |done].
  - unfold deleted. cbn. rewrite fmap_app. apply NoDup_app. split; [done|]. split.
    + intros p Hp Hp'. apply list_elem_of_fmap in Hp' as [[d q] [-> Hin]].
      destruct (Hdl _ _ Hin) as (_ & Hq & i & u & Hi & Hu). cbn in *.
      apply (Hdel i u); [done|congruence|]. by rewrite Hu.
    + destruct dl as [|[d p] dl]; [constructor|].
      destruct (Hdl d p) as (Heq & _); [left|]. injection Heq as ->.
      cbn. apply NoDup_singleton.
  - intros i u Hi Hnn. cbn in Hi. unfold deleted. cbn. rewrite fmap_app.
    destruct (Hheld _ _ Hi Hnn) as (Hsrc & Hnot).
    rewrite elem_of_app. intros [Hin|Hin]; [|done].
    destruct Hsrc as [(j & v & Hj & Hv)|[_ Hun]]; [|done].
    apply (Hdel j v); [done|congruence|]. by rewrite Hv.
Qed.

Lemma exclusive_quiet w os' :
  exclusive w →
  (∀ i u, os' !! i = Some u → ptr_ u ≠ nullptr →
     (∃ j v, owners w !! j = Some v ∧ ptr_ v = ptr_ u) ∨ unowned (ptr_ u) w) →
  (∀ i j u v, os' !! i = Some u → os' !! j = Some v → i ≠ j →
     ptr_ u ≠ nullptr → ptr_ u ≠ ptr_ v) →
  exclusive (World os' (calls w)).
Proof.
  intros Hex Hheld Hdist. rewrite <- (app_nil_r (calls w)).
  apply exclusive_step; [done| |intros i u Hi Hnn|done].
  - intros d p Hin. by apply elem_of_nil in Hin.
  - split; [eauto|]. cbn. apply not_elem_of_nil.
Qed.

(** The shape of [reset], [operator=] and the destructor: owner [this]
    gives up its address, which is deleted unless null. *)
Lemma exclusive_delete_old w os' this ut :
  exclusive w →
  owners w !! this = Some ut →
  (∀ i u, os' !! i = Some u → ptr_ u ≠ nullptr →
     (∃ j v, this ≠ j ∧ owners w !! j = Some v ∧ ptr_ v = ptr_ u)
     ∨ unowned (ptr_ u) w) →
  (∀ i j u v, os' !! i = Some u → os' !! j = Some v → i ≠ j →
     ptr_ u ≠ nullptr → ptr_ u ≠ ptr_ v) →
  exclusive (World os' (calls w ++
    if to_bool (ptr_ ut) then [(deleter_store ut, ptr_ ut)] else [])).
Proof.
  intros Hex Ht Hheld Hdist. pose proof Hex as (Hnd & Hdel & Hpair).
  destruct (to_bool (ptr_ ut)) eqn:Hnull.
  - apply to_bool_true in Hnull.
    apply exclusive_step; [done| | |done].
    + intros d p Hin. apply list_elem_of_singleton in Hin.
      injection Hin as -> ->. eauto 6.
    + intros i u Hi Hnn. cbn. rewrite list_elem_of_singleton.
      destruct (Hheld _ _ Hi Hnn) as [(j & v & Hj & Hv & Heq)|[Hall Hnot]].
      * split; [eauto|]. rewrite <- Heq. apply (Hpair j this); [done..|congruence].
      * split; [by right|]. intros Heq.
        by apply (map_Forall_lookup_1 _ _ _ _ Hall Ht).
  - rewrite app_nil_r. apply exclusive_quiet; [done| |done].
    intros i u Hi Hnn. destruct (Hheld _ _ Hi Hnn) as [(j & v & _ & ?)|?]; eauto.
Qed.

Lemma move_construct_onto_live a b ub w :
  owners w !! b = Some ub → move_construct b a w = None.
Proof.
  intros Hb. unfold move_construct, get_deleter, set_deleter, set_ptr. run_bind.
  destruct (owners w !! a) as [ua|] eqn:Ha; reduce_members; [|done].
  known Ha. rewrite lookup_insert_eq. reduce_members.
  destruct (decide (a = b)) as [->|Hne]; [by rewrite lookup_insert_eq|].
  rewrite lookup_insert_ne by done. by known Hb.
Qed.

Lemma unowned_elim p w :
  p = nullptr ∨ unowned p w →
  (∀ i u, owners w !! i = Some u → ptr_ u ≠ nullptr ∨ p ≠ nullptr → ptr_ u ≠ p)
  ∧ (p ≠ nullptr → p ∉ deleted w)
  ∧ (p ≠ nullptr → unowned p w).
Proof.
  intros [->|[Hall Hnot]]; [split; [|done]; by intros i u _ [?|?]|].
  split; [|done].
  intros i u Hi _. by apply (map_Forall_lookup_1 _ _ _ _ Hall Hi).
Qed.

(** Closes the side conditions of [exclusive_step] from the invariant
    [Hdel], [Hpair] of the state before. *)
Ltac held_before :=
  split_lookups; try done;
  try (split; [|cbn; rewrite ?list_elem_of_singleton; try apply not_elem_of_nil]);
  first [ by eauto | by (left; eauto) | by (right; eauto)
        | by (intros ?; eauto) | by (intros ?; symmetry; eauto) | idtac ].

Lemma exec_preserves (c : op) w w' :
  exclusive w → hands_over c w = true → exec c w = Some (tt, w') → exclusive w'.
Proof.
  intros Hex Hho Hrun. pose proof Hex as (Hnd & Hdel & Hpair).
  destruct c as [this ptr d|this u|this r|this|this|this ptr|this other|this];
    cbn [exec hands_over] in *.
  - unfold construct, create in Hrun.
    destruct (owners w !! this) eqn:Ht; [done|]. injection Hrun as <-.
    apply bool_decide_eq_true in Hho.
    destruct (unowned_elim _ _ Hho) as (Hf & _ & Hun).
    apply exclusive_quiet; [done|..]; intros; held_before.
    intros Heq. eapply Hf; eauto.
  - destruct (owners w !! u) as [uu|] eqn:Hu.
    2: { destruct (missing_object _ _ Hu) as (_&_&_&_&_&Hm&_). by rewrite Hm in Hrun. }
    destruct (owners w !! this) as [ut|] eqn:Ht.
    { by rewrite (move_construct_onto_live _ _ _ _ Ht) in Hrun. }
    rewrite (move_construct_spec _ _ _ _ Hu Ht) in Hrun. injection Hrun as <-.
    apply exclusive_quiet; [done|..]; intros; held_before.
  - destruct (owners w !! r) as [ur|] eqn:Hr.
    2: { destruct (missing_object _ _ Hr) as (_&_&_&_&_&_&Hm&_). by rewrite Hm in Hrun. }
    destruct (owners w !! this) as [ut|] eqn:Ht.
    2: { destruct (missing_object _ _ Ht) as (_&_&_&_&_&_&_&Hm). by rewrite Hm in Hrun. }
    destruct (decide (r = this)) as [->|Hne].
    + rewrite (move_assign_self_spec _ _ _ Ht) in Hrun. injection Hrun as <-.
      apply exclusive_quiet; [done|..]; intros; held_before.
    + rewrite (move_assign_spec _ _ _ _ _ Hne Hr Ht) in Hrun. injection Hrun as <-.
      apply (exclusive_delete_old _ _ this ut); [done..| |]; intros; held_before.
  - destruct (owners w !! this) as [ut|] eqn:Ht.
    2: { destruct (missing_object _ _ Ht) as (_&Hm&_). unfold assign_null in Hrun.
         by rewrite Hm in Hrun. }
    unfold assign_null in Hrun.
    rewrite (reset_spec _ _ _ _ Ht) in Hrun. injection Hrun as <-.
    apply (exclusive_delete_old _ _ this ut); [done..| |]; intros; held_before.
  - destruct (owners w !! this) as [ut|] eqn:Ht.
    2: { destruct (missing_object _ _ Ht) as (Hm&_). cbv [mbind M_bind] in Hrun.
         by rewrite Hm in Hrun. }
    cbv [mbind M_bind] in Hrun. rewrite (release_spec _ _ _ Ht) in Hrun.
    injection Hrun as <-.
    apply exclusive_quiet; [done|..]; intros; held_before.
  - destruct (owners w !! this) as [ut|] eqn:Ht.
    2: { destruct (missing_object _ _ Ht) as (_&Hm&_). by rewrite Hm in Hrun. }
    rewrite (reset_spec _ _ _ _ Ht) in Hrun. injection Hrun as <-.
    apply bool_decide_eq_true in Hho.
    destruct (unowned_elim _ _ Hho) as (Hf & _ & Hun).
    apply (exclusive_delete_old _ _ this ut); [done..| |]; intros; held_before.
    intros Heq. eapply Hf; eauto.
  - destruct (owners w !! this) as [ut|] eqn:Ht.
    2: { destruct (missing_object _ _ Ht) as (_&_&_&Hm&_). by rewrite Hm in Hrun. }
    destruct (owners w !! other) as [uo|] eqn:Ho.
    2: { destruct (missing_object _ _ Ho) as (_&_&_&_&Hm&_). by rewrite Hm in Hrun. }
    rewrite (swap_spec _ _ _ _ _ Ht Ho) in Hrun. injection Hrun as <-.
    apply exclusive_quiet; [done|..]; intros; held_before.
  - destruct (owners w !! this) as [ut|] eqn:Ht.
    2: { destruct (missing_object _ _ Ht) as (_&_&Hm&_). by rewrite Hm in Hrun. }
    rewrite (destroy_spec _ _ _ Ht) in Hrun. injection Hrun as <-.
    apply (exclusive_delete_old _ _ this ut); [done..| |]; intros; held_before.
Qed.

Lemma run_preserves (ops : list op) : ∀ w,
  exclusive w → disciplined ops w →
  ∃ w', run ops w = Some (tt, w') ∧ exclusive w'.
Proof.
  induction ops as [|c ops IH]; intros w Hex Hd; cbn in *; [by eexists|].
  destruct Hd as [Hho Hd]. cbv [mbind M_bind].
  destruct (exec c w) as [[[] w1]|] eqn:Hc; [|done].
  apply IH; [|done]. by apply (exec_preserves c w).
Qed.

(** C4: a transfer empties its source before any deleter can be called:
    [release] and move construction call none, and move assignment is
    [release] on the source, which calls none, followed by [reset] and
    the deleter assignment in a state where the source is already empty.
    So a run of owner operations from a state with exclusive ownership,
    in which every raw address the caller hands to an owner is null or
    unowned, completes and calls a deleter on no address twice. *)
Theorem transfer_clears_before_deletion :
  (∀ a b ua w,
     owners w !! a = Some ua →
     ∃ w1, release a w = Some (ptr_ ua, w1)
       ∧ owners w1 !! a = Some (UniquePtr (deleter_store ua) nullptr)
       ∧ calls w1 = calls w
       ∧ move_assign b a w = (reset b (ptr_ ua);; assign_deleter b a) w1)
  ∧
  (∀ a b ua w,
     owners w !! a = Some ua →
     owners w !! b = None →
     ∃ w1, move_construct b a w = Some (tt, w1)
       ∧ (∃ u1, owners w1 !! a = Some u1 ∧ ptr_ u1 = nullptr)
       ∧ calls w1 = calls w)
  ∧
  (∀ (ops : list op) w,
     exclusive w →
     disciplined ops w →
     ∃ w', run ops w = Some (tt, w')
       ∧ exclusive w'
       ∧ NoDup (deleted w')
       ∧ ∀ p, times_deleted p w' ≤ 1).
Proof.
  split; [|split].
  - intros a b ua w Ha. rewrite (release_spec _ _ _ Ha). eexists. split; [done|].
    cbn. rewrite lookup_insert_eq. do 2 (split; [done|]).
    unfold move_assign. cbv [mbind M_bind]. by rewrite (release_spec _ _ _ Ha).
  - intros a b ua w Ha Hb. rewrite (move_construct_spec _ _ _ _ Ha Hb).
    eexists. split; [done|]. cbn. rewrite lookup_insert_eq. eauto.
  - intros ops w Hex Hd. destruct (run_preserves ops w Hex Hd) as (w' & Hrun & Hex').
    exists w'. split; [done|]. split; [done|]. pose proof Hex' as (Hnd & _).
    split; [done|]. intros p. by apply times_deleted_NoDup.
Qed.

End facts.

(** ** The statements at work on the sample states *)

Import Samples.

Lemma release_hands_over_witness :
  owners one_array !! 0 = Some (array_owner 5)
  ∧ ∃ w', release 0 one_array = Some (5%N, w')
      ∧ owners w' !! 0 = Some (array_owner nullptr)
      ∧ operator_bool 0 w' = Some (false, w')
      ∧ calls w' = []
      ∧ ∃ w'', destroy 0 w' = Some (tt, w'') ∧ calls w'' = [] ∧ owners w'' !! 0 = None.
Proof.
  split; [reflexivity|].
  apply (release_hands_over 0 (array_owner 5) one_array). reflexivity.
Defined.

Lemma reset_installs_and_deletes_old_witness :
  owners one_int !! 0 = Some (int_owner 100 5)
  ∧ ∃ w', reset 0 9%N one_int = Some (tt, w')
      ∧ owners w' !! 0 = Some (int_owner 100 9)
      ∧ calls w' = [(100%N, 5%N)]
      ∧ times_deleted 5%N w' = 1
      ∧ times_deleted 9%N w' = 0.
Proof.
  split; [reflexivity|].
  apply (reset_installs_and_deletes_old 0 (int_owner 100 5) 9%N one_int). reflexivity.
Defined.

(** C2, as stated, fails: resetting an owner to the address it already
    holds calls the deleter on that very address. *)
Lemma reset_to_held_address_deletes_it :
  ¬ (∀ (o : ref) (p : pointer) (u : unique_ptr Scalar N) (w w' : world Scalar N),
       owners w !! o = Some u →
       reset o p w = Some (tt, w') →
       times_deleted p w' = times_deleted p w).
Proof.
  intros Hclaim.
  specialize (Hclaim 0 5%N (int_owner 100 5) one_int
                (World {[ 0 := int_owner 100 5 ]} [(100%N, 5%N)]) eq_refl eq_refl).
  vm_compute in Hclaim. discriminate.
Qed.

Lemma move_transfers_ownership_witness :
  (owners one_int !! 0 = Some (int_owner 100 5) ∧ owners one_int !! 1 = None
   ∧ ∃ w', move_construct 1 0 one_int = Some (tt, w')
       ∧ owners w' !! 0 = Some (int_owner 100 nullptr)
       ∧ owners w' !! 1 = Some (int_owner 100 5)
       ∧ calls w' = [])
  ∧
  (0 ≠ 1 ∧ owners two_ints !! 0 = Some (int_owner 100 5)
   ∧ owners two_ints !! 1 = Some (int_owner 200 6)
   ∧ ∃ w', move_assign 1 0 two_ints = Some (tt, w')
       ∧ owners w' !! 0 = Some (int_owner 100 nullptr)
       ∧ owners w' !! 1 = Some (int_owner 100 5)
       ∧ calls w' = [(200%N, 6%N)]
       ∧ times_deleted 5%N w' = 0).
Proof.
  destruct (@move_transfers_ownership Scalar N _) as [Hconstruct Hassign].
  split.
  - do 2 (split; [reflexivity|]).
    apply (Hconstruct 0 1 (int_owner 100 5) one_int); reflexivity.
  - split; [lia|]. do 2 (split; [reflexivity|]).
    apply (Hassign 0 1 (int_owner 100 5) (int_owner 200 6) two_ints);
      [lia|reflexivity|reflexivity|].
    cbn. intros Heq. discriminate Heq.
Defined.

Lemma self_move_assign_harmless_witness :
  owners one_int !! 0 = Some (int_owner 100 5)
  ∧ ∃ w', move_assign 0 0 one_int = Some (tt, w')
      ∧ owners w' !! 0 = Some (int_owner 100 5)
      ∧ calls w' = []
      ∧ (∀ j, j ≠ 0 → owners w' !! j = owners one_int !! j)
      ∧ (100%N = 100%N → w' = one_int).
Proof.
  split; [reflexivity|].
  exact (@self_move_assign_harmless Scalar N _ 0 (int_owner 100 5) one_int eq_refl).
Defined.

Lemma nothing_exclusive : exclusive nothing.
Proof.
  split; [constructor|]. split.
  - intros i u Hi. unfold nothing in Hi. cbn [owners] in Hi.
    by rewrite lookup_empty in Hi.
  - intros i j u v Hi. unfold nothing in Hi. cbn [owners] in Hi.
    by rewrite lookup_empty in Hi.
Qed.

Lemma program_disciplined : disciplined program nothing.
Proof. vm_compute. repeat split. Qed.

Lemma transfer_clears_before_deletion_witness :
  (owners two_ints !! 0 = Some (int_owner 100 5)
   ∧ ∃ w1, release 0 two_ints = Some (5%N, w1)
       ∧ owners w1 !! 0 = Some (int_owner 100 nullptr)
       ∧ calls w1 = []
       ∧ move_assign 1 0 two_ints = (reset 1 5%N;; assign_deleter 1 0) w1)
  ∧
  (owners one_int !! 0 = Some (int_owner 100 5) ∧ owners one_int !! 1 = None
   ∧ ∃ w1, move_construct 1 0 one_int = Some (tt, w1)
       ∧ (∃ u1, owners w1 !! 0 = Some u1 ∧ ptr_ u1 = nullptr)
       ∧ calls w1 = [])
  ∧
  (exclusive nothing ∧ disciplined program nothing
   ∧ ∃ w', run program nothing = Some (tt, w')
       ∧ exclusive w'
       ∧ NoDup (deleted w')
       ∧ ∀ p, times_deleted p w' ≤ 1).
Proof.
  destruct (@transfer_clears_before_deletion Scalar N _) as (Hrel & Hcons & Hrun).
  split; [|split].
  - split; [reflexivity|]. apply (Hrel 0 1 (int_owner 100 5) two_ints). reflexivity.
  - do 2 (split; [reflexivity|]).
    apply (Hcons 0 1 (int_owner 100 5) one_int); reflexivity.
  - split; [apply nothing_exclusive|]. split; [apply program_disciplined|].
    apply (Hrun program nothing); [apply nothing_exclusive|apply program_disciplined].
Defined.

End OwnerFacts.

(** * Facts about the comparison operators *)

Module CompareFacts.
Import Compare.

(** C9: two owners, of any two owner types, are [==] exactly when the
    addresses they hold are equal (null with null included); [<] is the
    order of the held addresses, the other three operators are defined
    from it as stated, and together they are a strict total order:
    irreflexive, transitive, and exactly one of [x < y], [x == y],
    [y < x] holds. *)
Theorem comparison_is_address_order {T1 T2 T3 : ctype} {D1 D2 D3 : Type}
    (x : unique_ptr T1 D1) (y : unique_ptr T2 D2) (z : unique_ptr T3 D3) :
  get x = ptr_ x
  ∧ (operator_eq x y = true ↔ ptr_ x = ptr_ y)
  ∧ (operator_ne x y = true ↔ ptr_ x ≠ ptr_ y)
  ∧ operator_ne x y = negb (operator_eq x y)
  ∧ (operator_lt x y = true ↔ (ptr_ x < ptr_ y)%N)
  ∧ operator_le x y = negb (operator_lt y x)
  ∧ (operator_le x y = true ↔ (ptr_ x ≤ ptr_ y)%N)
  ∧ operator_gt x y = operator_lt y x
  ∧ (operator_gt x y = true ↔ (ptr_ y < ptr_ x)%N)
  ∧ operator_ge x y = negb (operator_lt x y)
  ∧ (operator_ge x y = true ↔ (ptr_ y ≤ ptr_ x)%N)
  ∧ operator_lt x x = false
  ∧ implb (operator_lt x y && operator_lt y z) (operator_lt x z) = true
  ∧ (operator_lt x y = true ∧ operator_eq x y = false ∧ operator_lt y x = false
     ∨ operator_lt x y = false ∧ operator_eq x y = true ∧ operator_lt y x = false
     ∨ operator_lt x y = false ∧ operator_eq x y = false ∧ operator_lt y x = true).
Proof.
  unfold operator_eq, operator_ne, operator_le, operator_gt, operator_ge,
    operator_lt, less, get.
  destruct x as [dx px], y as [dy py], z as [dz pz]. cbn [ptr_].
  rewrite !negb_true_iff, !N.ltb_ge, N.eqb_eq, N.eqb_neq, !N.ltb_lt.
  repeat split; try done; try lia; try apply N.ltb_irrefl.
  - destruct (N.ltb_spec px py), (N.ltb_spec py pz), (N.ltb_spec px pz);
      cbn; try done; lia.
Qed.

(** The statement at work on owners of two different types, one of an
    [int] holding 5 or 6 and one of an [int[]] holding 6. *)
Lemma comparison_is_address_order_witness :
  operator_eq (Samples.int_owner 100 5) (Samples.array_owner 6) = false
  ∧ operator_ne (Samples.int_owner 100 5) (Samples.array_owner 6) = true
  ∧ operator_lt (Samples.int_owner 100 5) (Samples.array_owner 6) = true
  ∧ operator_le (Samples.int_owner 100 5) (Samples.array_owner 6) = true
  ∧ operator_gt (Samples.int_owner 100 5) (Samples.array_owner 6) = false
  ∧ operator_ge (Samples.int_owner 100 5) (Samples.array_owner 6) = false
  ∧ operator_eq (Samples.int_owner 100 6) (Samples.array_owner 6) = true
  ∧ operator_lt (Samples.int_owner 100 6) (Samples.array_owner 6) = false.
Proof.
  destruct (comparison_is_address_order (Samples.int_owner 100 5) (Samples.array_owner 6)
              (Samples.array_owner 6))
    as (_ & Heq & Hne & _ & Hlt & _ & Hle & _ & Hgt & _ & Hge & _).
  destruct (comparison_is_address_order (Samples.int_owner 100 6) (Samples.array_owner 6)
              (Samples.array_owner 6))
    as (_ & Heq' & _ & _ & Hlt' & _).
  cbn [Samples.int_owner Samples.array_owner ptr_] in *.
  refine (conj _ (conj _ (conj _ (conj _ (conj _ (conj _ (conj _ _))))))).
  - apply not_true_is_false. intros E. apply Heq in E. discriminate E.
  - apply Hne. discriminate.
  - apply Hlt. lia.
  - apply Hle. lia.
  - apply not_true_is_false. intros E. apply Hgt in E. lia.
  - apply not_true_is_false. intros E. apply Hge in E. lia.
  - apply Heq'. reflexivity.
  - apply not_true_is_false. intros E. apply Hlt' in E. lia.
Defined.

End CompareFacts.

(** * Facts about the array factory *)

Module FactoryFacts.
Import Factory.

Lemma new_array_value_fresh (elem : ctype) (size : N) (h : heap) :
  (new_array_value elem size h).1 ≠ nullptr
  ∧ h !! (new_array_value elem size h).1 = None.
Proof.
  unfold new_array_value. cbn.
  pose proof (is_fresh ({[nullptr]} ∪ dom h)) as Hfresh.
  split.
  - intros Heq. apply Hfresh. rewrite Heq. set_solver.
  - apply not_elem_of_dom. set_solver.
Qed.

Lemma fresh_address (h : heap) :
  fresh ({[nullptr]} ∪ dom h) ≠ nullptr ∧ h !! fresh ({[nullptr]} ∪ dom h) = None.
Proof. exact (new_array_value_fresh Scalar 0 h). Qed.

Lemma unbounded_conforming : conforming unbounded.
Proof. intros elem size h p [= <-]. apply fresh_address. Qed.

Lemma small_host_conforming : conforming Samples.small_host.
Proof.
  intros elem size h p. unfold Samples.small_host.
  destruct (size <=? 8)%N; [|done]. intros [= <-]. apply fresh_address.
Qed.

(** The first two definitions are the hosted ones on the host that never
    refuses. *)
Lemma make_unique_never_refused (T : ctype) (n : N) (h : heap) :
  Hosted.make_unique unbounded T n h
  = match make_unique T n h with
    | Some (u, h') => Made u h'
    | None => Disabled
    end.
Proof.
  unfold Hosted.make_unique, make_unique, Hosted.new_array_value, new_array_value,
    unbounded.
  by destruct (is_array T && (extent T =? 0)%N).
Qed.

(** C5 (amended): on a host whose allocation function behaves as asked,
    whenever the allocation of [n] elements succeeds,
    [make_unique<U[]>(n)] allocates a new array of exactly [n] elements
    of type [U], each value-initialized (a scalar is zero), leaves every
    other array alone, and returns a non-empty owner of it with the
    default array deleter; where the allocation is refused no owner is
    returned; the overload exists exactly for arrays of unknown bound. *)
Theorem make_unique_array_value_initialized
    (operator_new : ctype → N → heap → option pointer)
    (T elem : ctype) (n : N) (h : heap) :
  conforming operator_new →
  (∀ p, operator_new elem n h = Some p →
     ∃ h',
       Hosted.make_unique operator_new (ArrayU elem) n h
         = Made (UniquePtr (DefaultDelete (ArrayU elem)) p) h'
       ∧ to_bool p = true
       ∧ h !! p = None
       ∧ h' !! p = Some (replicate (N.to_nat n) (value_init elem))
       ∧ length (replicate (N.to_nat n) (value_init elem)) = N.to_nat n
       ∧ ∀ q, q ≠ p → h' !! q = h !! q)
  ∧ (operator_new elem n h = None →
     Hosted.make_unique operator_new (ArrayU elem) n h = BadAlloc)
  ∧ (Hosted.make_unique operator_new T n h ≠ Disabled ↔ ∃ e, T = ArrayU e).
Proof.
  intros Hhost. split; [|split].
  - intros p Hp. destruct (Hhost elem n h p Hp) as [Hnull Hnew].
    unfold Hosted.make_unique, Hosted.new_array_value.
    cbn [is_array extent remove_extent andb N.eqb]. rewrite Hp.
    eexists. split; [done|].
    split; [by apply N.eqb_neq in Hnull; unfold to_bool; rewrite Hnull|].
    split; [done|]. rewrite lookup_insert_eq. split; [done|].
    split; [apply length_replicate|]. intros q Hq. by rewrite lookup_insert_ne.
  - intros Hp. unfold Hosted.make_unique, Hosted.new_array_value.
    cbn [is_array extent remove_extent andb N.eqb]. by rewrite Hp.
  - unfold Hosted.make_unique, Hosted.new_array_value.
    destruct T as [|c|b e|e]; cbn [is_array extent remove_extent andb].
    + split; [done|by intros [? ?]].
    + split; [done|by intros [? ?]].
    + split; [done|by intros [? ?]].
    + split; [eauto|]. intros _. cbn. by destruct (operator_new e n h).
Qed.

(** The statement at work on a host with room for 8 elements: an array of
    2 is made, an array of 9 is not. *)
Lemma make_unique_array_value_initialized_witness :
  conforming Samples.small_host
  ∧ Samples.small_host Scalar 2 ∅ = Some 1%N
  ∧ Samples.small_host Scalar 9 ∅ = None
  ∧ (∃ h', Hosted.make_unique Samples.small_host (ArrayU Scalar) 2 ∅
           = Made (Samples.array_owner 1) h'
         ∧ h' !! 1%N = Some [Value 0; Value 0]
         ∧ ∀ q, q ≠ 1%N → h' !! q = None)
  ∧ Hosted.make_unique Samples.small_host (ArrayU Scalar) 9 ∅ = BadAlloc.
Proof.
  assert (Samples.small_host Scalar 2 ∅ = Some 1%N) as Hmade by reflexivity.
  assert (Samples.small_host Scalar 9 ∅ = None) as Hrefused by reflexivity.
  split; [exact small_host_conforming|]. do 2 (split; [assumption|]).
  destruct (make_unique_array_value_initialized Samples.small_host Scalar Scalar 2 ∅
              small_host_conforming) as (Hsome & _ & _).
  destruct (make_unique_array_value_initialized Samples.small_host Scalar Scalar 9 ∅
              small_host_conforming) as (_ & Hnone & _).
  destruct (Hsome 1%N Hmade) as (h' & Hrun & _ & _ & Helems & _ & Hrest).
  split; [|exact (Hnone Hrefused)].
  exists h'. split; [exact Hrun|]. split; [exact Helems|].
  intros q Hq. rewrite (Hrest q Hq). apply lookup_empty.
Defined.

(** C5, as stated, fails: the elements of [make_unique<int[]>(1)] are not
    default-initialized (left indeterminate) but zeroed, on the host that
    never refuses and on the small host, where the array of 1 is made. *)
Lemma make_unique_array_not_default_initialized :
  ¬ (∀ (elem : ctype) (n : N) (h : heap),
       ∃ p h', make_unique (ArrayU elem) n h
                 = Some (UniquePtr (DefaultDelete (ArrayU elem)) p, h')
               ∧ h' !! p = Some (replicate (N.to_nat n) (default_init elem)))
  ∧ ¬ (∀ (elem : ctype) (n : N) (h : heap) (p : pointer),
         Samples.small_host elem n h = Some p →
         ∃ h', Hosted.make_unique Samples.small_host (ArrayU elem) n h
                 = Made (UniquePtr (DefaultDelete (ArrayU elem)) p) h'
               ∧ h' !! p = Some (replicate (N.to_nat n) (default_init elem))).
Proof.
  split.
  - intros Hclaim. destruct (Hclaim Scalar 1%N ∅) as (p & h' & Hmk & Hp).
    vm_compute in Hmk. injection Hmk as <- <-. vm_compute in Hp. discriminate.
  - intros Hclaim.
    assert (Samples.small_host Scalar 1 ∅ = Some 1%N) as Hmade by reflexivity.
    destruct (Hclaim Scalar 1%N ∅ 1%N Hmade) as (h' & Hmk & Hp).
    vm_compute in Hmk. injection Hmk as <-. vm_compute in Hp. discriminate.
Qed.

End FactoryFacts.

(** * Facts about the uninitialized-range algorithms *)

Module mstdFacts.
Import mstd.

Section facts.
Context {V : Type} (moved : V -> V).
Implicit Types (m : memory V) (first last result n p q : Z).

Local Open Scope Z_scope.

(** ** The loops, one iteration at a time *)

Lemma destroy_n_unfold first n m :
  destroy_n first n m
  = if decide (n > 0) then destroy_n (first + 1) (n - 1) (destroy_at first m)
    else (first, m).
Proof. simp destroy_n. destruct (decide (n > 0)); by simp destroy_n. Qed.

Lemma uninitialized_move_n_unfold first n result m :
  uninitialized_move_n moved first n result m
  = if decide (n > 0) then
      match construct_from moved result first m with
      | None => Undefined
      | Some m' => uninitialized_move_n moved (first + 1) (n - 1) (result + 1) m'
      end
    else Done (IterPair first result, m).
Proof.
  simp uninitialized_move_n. destruct (decide (n > 0)); simp uninitialized_move_n; [|done].
  destruct (construct_from moved result first m); by simp uninitialized_move_n.
Qed.

Lemma destroy_unfold fuel first last m :
  destroy fuel first last m
  = if decide (first ≠ last) then
      match fuel with
      | O => Timeout
      | S fuel' => destroy fuel' (first + 1) last (destroy_at first m)
      end
    else Done m.
Proof. by destruct fuel. Qed.

Lemma uninitialized_move_unfold fuel first last result m :
  uninitialized_move moved fuel first last result m
  = if decide (first ≠ last) then
      match fuel with
      | O => Timeout
      | S fuel' =>
          match construct_from moved result first m with
          | None => Undefined
          | Some m' => uninitialized_move moved fuel' (first + 1) last (result + 1) m'
          end
      end
    else Done (Iter result, m).
Proof. by destruct fuel. Qed.

(** ** Destruction *)

Lemma destroy_n_steps (k : nat) : ∀ first m,
  ∃ m', destroy_n first (Z.of_nat k) m = (first + Z.of_nat k, m')
    ∧ log m' = log m ++ (Teardown <$> seqZ first (Z.of_nat k))
    ∧ ∀ q, slots m' !! q
           = if decide (first ≤ q < first + Z.of_nat k) then None else slots m !! q.
Proof.
  induction k as [|k IH]; intros first m; rewrite destroy_n_unfold.
  - rewrite decide_False by lia. exists m. rewrite Z.add_0_r, app_nil_r.
    split; [done|]. split; [done|]. intros q. by rewrite decide_False by lia.
  - rewrite decide_True by lia.
    replace (Z.of_nat (S k) - 1) with (Z.of_nat k) by lia.
    destruct (IH (first + 1) (destroy_at first m)) as (m' & -> & Hlog & Hslots).
    exists m'. split; [f_equal; lia|]. split.
    + rewrite Hlog. cbn [destroy_at log]. rewrite <- app_assoc. f_equal.
      rewrite (seqZ_cons first) by lia. cbn. do 3 f_equal; lia.
    + intros q. rewrite Hslots. cbn [destroy_at slots].
      destruct (decide (q = first)) as [->|Hq].
      * rewrite lookup_delete_eq. rewrite decide_False by lia.
        by rewrite decide_True by lia.
      * rewrite lookup_delete_ne by done.
        destruct (decide (first + 1 ≤ q < first + 1 + Z.of_nat k)).
        -- by rewrite decide_True by lia.
        -- by rewrite decide_False by lia.
Qed.

Lemma destroy_n_spec first n m :
  ∃ m', destroy_n first n m = (first + Z.max 0 n, m')
    ∧ log m' = log m ++ (Teardown <$> seqZ first n)
    ∧ ∀ q, slots m' !! q = if decide (first ≤ q < first + n) then None else slots m !! q.
Proof.
  destruct (decide (0 ≤ n)) as [Hn|Hn].
  - destruct (destroy_n_steps (Z.to_nat n) first m) as (m' & Hd & Hlog & Hslots).
    rewrite Z2Nat.id in * by done. exists m'.
    by rewrite Z.max_r by done.
  - exists m. rewrite destroy_n_unfold, decide_False by lia.
    rewrite Z.max_l, Z.add_0_r, seqZ_nil, app_nil_r by lia.
    split; [done|]. split; [done|]. intros q. by rewrite decide_False by lia.
Qed.

Lemma destroy_as_counted fuel : ∀ first last m,
  first ≤ last →
  (Z.to_nat (last - first) ≤ fuel)%nat →
  destroy fuel first last m = Done (destroy_n first (last - first) m).2.
Proof.
  induction fuel as [|fuel IH]; intros first last m Hle Hfuel;
    rewrite destroy_unfold, destroy_n_unfold.
  - rewrite decide_False by lia. by rewrite decide_False by lia.
  - destruct (decide (first = last)) as [->|Hne].
    + rewrite decide_False by (intros ?; done). by rewrite decide_False by lia.
    + rewrite !decide_True by (done || lia).
      rewrite IH by lia. do 3 f_equal. lia.
Qed.

(** ** Move construction *)

Lemma construct_from_live result first m v :
  slots m !! first = Some v →
  construct_from moved result first m
  = Some (Memory (<[result := v]> (<[first := moved v]> (slots m)))
                 (log m ++ [Construct result])).
Proof. intros Hv. unfold construct_from. by rewrite Hv. Qed.

(** Whatever the ranges, live sources are all the loop needs to get to its
    end, and the slots are constructed from [result] on, in order. *)
Lemma uninitialized_move_n_returns (k : nat) : ∀ first result m,
  (∀ i, 0 ≤ i < Z.of_nat k → is_Some (slots m !! (first + i))) →
  ∃ m', uninitialized_move_n moved first (Z.of_nat k) result m
        = Done (IterPair (first + Z.of_nat k) (result + Z.of_nat k), m')
    ∧ log m' = log m ++ (Construct <$> seqZ result (Z.of_nat k)).
Proof.
  induction k as [|k IH]; intros first result m Hlive;
    rewrite uninitialized_move_n_unfold.
  - rewrite decide_False by lia. exists m. by rewrite !Z.add_0_r, app_nil_r.
  - rewrite decide_True by lia.
    destruct (Hlive 0) as [v Hv]; [lia|]. rewrite Z.add_0_r in Hv.
    rewrite (construct_from_live _ _ _ _ Hv).
    replace (Z.of_nat (S k) - 1) with (Z.of_nat k) by lia.
    edestruct (IH (first + 1) (result + 1)) as (m' & -> & Hlog).
    { intros i Hi. cbn [slots].
      destruct (Hlive (1 + i)) as [x Hx]; [lia|].
      rewrite Z.add_assoc in Hx.
      destruct (decide (result = first + 1 + i)) as [->|?];
        [by rewrite lookup_insert_eq|rewrite lookup_insert_ne by done].
      destruct (decide (first = first + 1 + i)) as [?|?]; [lia|].
      rewrite lookup_insert_ne by done. eauto. }
    exists m'. split; [do 2 f_equal; f_equal; lia|].
    rewrite Hlog. cbn [log]. rewrite <- app_assoc. f_equal.
    rewrite (seqZ_cons result) by lia. cbn. do 3 f_equal; lia.
Qed.

(** With the two ranges apart, every destination slot gets the value its
    source slot had, and every source slot is left moved-from. *)
Lemma uninitialized_move_n_steps (k : nat) : ∀ first result m,
  (∀ i, 0 ≤ i < Z.of_nat k → is_Some (slots m !! (first + i))) →
  (∀ i j, 0 ≤ i < Z.of_nat k → 0 ≤ j < Z.of_nat k → first + i ≠ result + j) →
  ∃ m', uninitialized_move_n moved first (Z.of_nat k) result m
        = Done (IterPair (first + Z.of_nat k) (result + Z.of_nat k), m')
    ∧ log m' = log m ++ (Construct <$> seqZ result (Z.of_nat k))
    ∧ (∀ i, 0 ≤ i < Z.of_nat k → slots m' !! (result + i) = slots m !! (first + i))
    ∧ (∀ i, 0 ≤ i < Z.of_nat k →
         slots m' !! (first + i) = moved <$> slots m !! (first + i))
    ∧ (∀ q, ¬ (first ≤ q < first + Z.of_nat k) →
            ¬ (result ≤ q < result + Z.of_nat k) →
            slots m' !! q = slots m !! q).
Proof.
  induction k as [|k IH]; intros first result m Hlive Hapart;
    rewrite uninitialized_move_n_unfold.
  - rewrite decide_False by lia. exists m. rewrite !Z.add_0_r, app_nil_r.
    repeat split; try done; intros; lia.
  - rewrite decide_True by lia.
    destruct (Hlive 0) as [v Hv]; [lia|]. rewrite Z.add_0_r in Hv.
    rewrite (construct_from_live _ _ _ _ Hv).
    replace (Z.of_nat (S k) - 1) with (Z.of_nat k) by lia.
    set (m1 := Memory _ _).
    assert (∀ q, q ≠ result → q ≠ first → slots m1 !! q = slots m !! q) as Hm1.
    { intros q ? ?. subst m1. cbn. by rewrite !lookup_insert_ne. }
    edestruct (IH (first + 1) (result + 1) m1) as (m' & -> & Hlog & Hdst & Hsrc & Hrest).
    { intros i Hi. rewrite Hm1; [|specialize (Hapart (1 + i) 0); lia|lia].
      rewrite <- Z.add_assoc. apply Hlive. lia. }
    { intros i j Hi Hj. specialize (Hapart (1 + i) (1 + j)). lia. }
    exists m'. split; [do 2 f_equal; f_equal; lia|]. split; [|split; [|split]].
    + rewrite Hlog. subst m1. cbn [log]. rewrite <- app_assoc. f_equal.
      rewrite (seqZ_cons result) by lia. cbn. do 3 f_equal; lia.
    + intros i Hi. destruct (decide (i = 0)) as [->|Hi0].
      * rewrite !Z.add_0_r, Hrest;
          [|intros ?; specialize (Hapart (result - first) 0); lia|lia].
        subst m1. cbn. by rewrite lookup_insert_eq.
      * replace (result + i) with (result + 1 + (i - 1)) by lia.
        rewrite Hdst by lia. rewrite Hm1.
        -- f_equal. lia.
        -- specialize (Hapart i 0). lia.
        -- lia.
    + intros i Hi. destruct (decide (i = 0)) as [->|Hi0].
      * rewrite !Z.add_0_r, Hrest; [|lia|
          intros ?; specialize (Hapart 0 (first - result)); lia].
        subst m1. cbn. rewrite lookup_insert_ne by (specialize (Hapart 0 0); lia).
        by rewrite lookup_insert_eq, Hv.
      * replace (first + i) with (first + 1 + (i - 1)) by lia.
        rewrite Hsrc by lia. rewrite Hm1; [done| |lia].
        specialize (Hapart i 0). lia.
    + intros q Hq1 Hq2. rewrite Hrest by lia. apply Hm1; lia.
Qed.

Lemma uninitialized_move_as_counted fuel : ∀ first last result m,
  first ≤ last →
  (Z.to_nat (last - first) ≤ fuel)%nat →
  uninitialized_move moved fuel first last result m
  = match uninitialized_move_n moved first (last - first) result m with
    | Done (IterPair _ r, m') | Done (Iter r, m') => Done (Iter r, m')
    | Undefined => Undefined
    | Timeout => Timeout
    end.
Proof.
  induction fuel as [|fuel IH]; intros first last result m Hle Hfuel;
    rewrite uninitialized_move_unfold, uninitialized_move_n_unfold.
  - rewrite decide_False by lia. by rewrite decide_False by lia.
  - destruct (decide (first = last)) as [->|Hne].
    + rewrite decide_False by (intros ?; done). by rewrite decide_False by lia.
    + rewrite !decide_True by (done || lia).
      destruct (construct_from moved result first m) as [m1|]; [|done].
      rewrite IH by lia. by replace (last - (first + 1)) with (last - first - 1) by lia.
Qed.

Lemma uninitialized_move_n_spec first n result m :
  (∀ i, 0 ≤ i < n → is_Some (slots m !! (first + i))) →
  ∃ m', uninitialized_move_n moved first n result m
        = Done (IterPair (first + Z.max 0 n) (result + Z.max 0 n), m')
    ∧ log m' = log m ++ (Construct <$> seqZ result n)
    ∧ ((∀ i j, 0 ≤ i < n → 0 ≤ j < n → first + i ≠ result + j) →
       (∀ i, 0 ≤ i < n → slots m' !! (result + i) = slots m !! (first + i))
       ∧ (∀ i, 0 ≤ i < n → slots m' !! (first + i) = moved <$> slots m !! (first + i))
       ∧ (∀ q, ¬ (first ≤ q < first + n) → ¬ (result ≤ q < result + n) →
               slots m' !! q = slots m !! q)).
Proof.
  intros Hlive. destruct (decide (0 ≤ n)) as [Hn|Hn].
  - rewrite Z.max_r by done. destruct (Z_of_nat_complete n Hn) as [k ->].
    destruct (uninitialized_move_n_returns k first result m Hlive)
      as (m' & Hrun & Hlog).
    exists m'. do 2 (split; [done|]). intros Hapart.
    destruct (uninitialized_move_n_steps k first result m Hlive Hapart)
      as (m'' & Hrun' & _ & Hfacts).
    rewrite Hrun in Hrun'. by injection Hrun' as <-.
  - exists m. rewrite uninitialized_move_n_unfold, decide_False by lia.
    rewrite Z.max_l, !Z.add_0_r, seqZ_nil, app_nil_r by lia.
    do 2 (split; [done|]). intros _. repeat split; try done; intros; lia.
Qed.

(** ** Counting in the log *)

Lemma teardowns_app p (l1 l2 : list event) :
  teardowns p (l1 ++ l2) = (teardowns p l1 + teardowns p l2)%nat.
Proof. unfold teardowns. by rewrite filter_app, length_app. Qed.

Lemma constructions_app p (l1 l2 : list event) :
  constructions p (l1 ++ l2) = (constructions p l1 + constructions p l2)%nat.
Proof. unfold constructions. by rewrite filter_app, length_app. Qed.

Lemma count_seqZ_nat (f : Z → event) p (k : nat) :
  (∀ a b, f a = f b → a = b) →
  ∀ first,
    length (filter (λ e, e = f p) (f <$> seqZ first (Z.of_nat k)))
    = if decide (first ≤ p < first + Z.of_nat k) then 1%nat else 0%nat.
Proof.
  intros Hinj. induction k as [|k IH]; intros first.
  - by rewrite decide_False by lia.
  - rewrite seqZ_cons by lia. rewrite fmap_cons, filter_cons.
    replace (Z.pred (Z.of_nat (S k))) with (Z.of_nat k) by lia.
    destruct (decide (first = p)) as [->|Hne].
    + rewrite decide_True by done. cbn [length]. rewrite IH.
      rewrite decide_False by lia. by rewrite decide_True by lia.
    + rewrite decide_False by (intros Heq; by apply Hinj in Heq). rewrite IH.
      destruct (decide (Z.succ first ≤ p < Z.succ first + Z.of_nat k)).
      * by rewrite decide_True by lia.
      * by rewrite decide_False by lia.
Qed.

Lemma teardowns_seqZ p first n :
  teardowns p (Teardown <$> seqZ first n)
  = if decide (first ≤ p < first + n) then 1%nat else 0%nat.
Proof.
  destruct (decide (0 ≤ n)) as [Hn|Hn].
  - destruct (Z_of_nat_complete n Hn) as [k ->].
    apply (count_seqZ_nat Teardown). by intros a b [= ->].
  - rewrite seqZ_nil by lia. by rewrite decide_False by lia.
Qed.

Lemma constructions_seqZ p first n :
  constructions p (Construct <$> seqZ first n)
  = if decide (first ≤ p < first + n) then 1%nat else 0%nat.
Proof.
  destruct (decide (0 ≤ n)) as [Hn|Hn].
  - destruct (Z_of_nat_complete n Hn) as [k ->].
    apply (count_seqZ_nat Construct). by intros a b [= ->].
  - rewrite seqZ_nil by lia. by rewrite decide_False by lia.
Qed.

Lemma teardowns_constructs p (l : list Z) : teardowns p (Construct <$> l) = 0%nat.
Proof.
  unfold teardowns. induction l as [|x l IH]; [done|]. rewrite fmap_cons, filter_cons.
  by rewrite decide_False.
Qed.

(** ** The claims *)

(** C8: [destroy_n] and [destroy] call the destructor of each slot they
    cover once, from the first slot upwards, and of no other slot;
    [destroy_n] returns the position after the slots destroyed.  A range
    is given by a start and an end at or after it. *)
Theorem destroy_once_each_in_order :
  (∀ first n m,
     ∃ m', destroy_n first n m = (first + Z.max 0 n, m')
       ∧ log m' = log m ++ (Teardown <$> seqZ first n)
       ∧ (∀ p, teardowns p (log m')
               = (teardowns p (log m) + if decide (first ≤ p < first + n)%Z then 1 else 0)%nat)
       ∧ (∀ q, slots m' !! q
               = if decide (first ≤ q < first + n) then None else slots m !! q))
  ∧
  (∀ fuel first last m,
     first ≤ last →
     (Z.to_nat (last - first) ≤ fuel)%nat →
     ∃ m', destroy fuel first last m = Done m'
       ∧ log m' = log m ++ (Teardown <$> seqZ first (last - first))
       ∧ (∀ p, teardowns p (log m')
               = (teardowns p (log m) + if decide (first ≤ p < last)%Z then 1 else 0)%nat)
       ∧ (∀ q, slots m' !! q = if decide (first ≤ q < last) then None else slots m !! q)).
Proof.
  split.
  - intros first n m. destruct (destroy_n_spec first n m) as (m' & Hrun & Hlog & Hslots).
    exists m'. do 2 (split; [done|]). split; [|done].
    intros p. by rewrite Hlog, teardowns_app, teardowns_seqZ.
  - intros fuel first last m Hle Hfuel.
    rewrite (destroy_as_counted fuel first last m Hle Hfuel).
    destruct (destroy_n_spec first (last - first) m) as (m' & -> & Hlog & Hslots).
    exists m'. cbn. do 2 (split; [done|]). split.
    + intros p. rewrite Hlog, teardowns_app, teardowns_seqZ.
      destruct (decide (first ≤ p < last)).
      * by rewrite decide_True by lia.
      * by rewrite decide_False by lia.
    + intros q. rewrite Hslots. destruct (decide (first ≤ q < last)).
      * by rewrite decide_True by lia.
      * by rewrite decide_False by lia.
Qed.

(** C7: on a source range of live values and a destination apart from
    it, [uninitialized_move] constructs the [last - first] slots from
    [result] on, in order, returns [result + (last - first)], gives each
    destination slot the value its source slot had, and calls no
    destructor: the source slots stay live, moved-from. *)
Theorem uninitialized_move_transfers fuel first last result m :
  first ≤ last →
  (Z.to_nat (last - first) ≤ fuel)%nat →
  (∀ i, 0 ≤ i < last - first → is_Some (slots m !! (first + i))) →
  (∀ i j, 0 ≤ i < last - first → 0 ≤ j < last - first → first + i ≠ result + j) →
  ∃ m', uninitialized_move moved fuel first last result m
        = Done (Iter (result + (last - first)), m')
    ∧ log m' = log m ++ (Construct <$> seqZ result (last - first))
    ∧ (∀ p, constructions p (log m')
            = (constructions p (log m)
               + if decide (result ≤ p < result + (last - first))%Z then 1 else 0)%nat)
    ∧ (∀ i, 0 ≤ i < last - first → slots m' !! (result + i) = slots m !! (first + i))
    ∧ (∀ i, 0 ≤ i < last - first →
         slots m' !! (first + i) = moved <$> slots m !! (first + i))
    ∧ (∀ q, ¬ (first ≤ q < last) → ¬ (result ≤ q < result + (last - first)) →
            slots m' !! q = slots m !! q)
    ∧ (∀ p, teardowns p (log m') = teardowns p (log m)).
Proof.
  intros Hle Hfuel Hlive Hapart.
  rewrite (uninitialized_move_as_counted fuel first last result m Hle Hfuel).
  destruct (uninitialized_move_n_spec first (last - first) result m Hlive)
    as (m' & -> & Hlog & Hvals).
  destruct (Hvals Hapart) as (Hdst & Hsrc & Hrest).
  exists m'. rewrite Z.max_r by lia. do 2 (split; [done|]).
  split; [intros p; by rewrite Hlog, constructions_app, constructions_seqZ|].
  do 2 (split; [done|]). split.
  - intros q Hq1 Hq2. apply Hrest; lia.
  - intros p. rewrite Hlog, teardowns_app, teardowns_constructs. lia.
Qed.

(** C6 (amended): on a source of live values, the range form
    [uninitialized_move] returns one iterator, the end of the
    destination, and the counted form [uninitialized_move_n] returns the
    pair of the end of the source and the end of the destination; both
    construct the destination slots in order, each from the value moved
    out of its source slot: with the destination apart from the source,
    every destination slot holds the value its source slot held, and
    every source slot is left moved-from. *)
Theorem move_algorithms_return :
  (∀ fuel first last result m,
     first ≤ last →
     (Z.to_nat (last - first) ≤ fuel)%nat →
     (∀ i, 0 ≤ i < last - first → is_Some (slots m !! (first + i))) →
     ∃ m', uninitialized_move moved fuel first last result m
           = Done (Iter (result + (last - first)), m')
       ∧ log m' = log m ++ (Construct <$> seqZ result (last - first))
       ∧ ((∀ i j, 0 ≤ i < last - first → 0 ≤ j < last - first →
                  first + i ≠ result + j) →
          (∀ i, 0 ≤ i < last - first →
               slots m' !! (result + i) = slots m !! (first + i))
          ∧ (∀ i, 0 ≤ i < last - first →
               slots m' !! (first + i) = moved <$> slots m !! (first + i))))
  ∧
  (∀ first n result m,
     (∀ i, 0 ≤ i < n → is_Some (slots m !! (first + i))) →
     ∃ m', uninitialized_move_n moved first n result m
           = Done (IterPair (first + Z.max 0 n) (result + Z.max 0 n), m')
       ∧ log m' = log m ++ (Construct <$> seqZ result n)
       ∧ ((∀ i j, 0 ≤ i < n → 0 ≤ j < n → first + i ≠ result + j) →
          (∀ i, 0 ≤ i < n → slots m' !! (result + i) = slots m !! (first + i))
          ∧ (∀ i, 0 ≤ i < n →
               slots m' !! (first + i) = moved <$> slots m !! (first + i)))).
Proof.
  split.
  - intros fuel first last result m Hle Hfuel Hlive.
    rewrite (uninitialized_move_as_counted fuel first last result m Hle Hfuel).
    destruct (uninitialized_move_n_spec first (last - first) result m Hlive)
      as (m' & -> & Hlog & Hvals).
    exists m'. rewrite Z.max_r by lia. do 2 (split; [done|]). intros Hapart.
    destruct (Hvals Hapart) as (? & ? & _). done.
  - intros first n result m Hlive.
    destruct (uninitialized_move_n_spec first n result m Hlive)
      as (m' & Hrun & Hlog & Hvals).
    exists m'. do 2 (split; [done|]). intros Hapart.
    destruct (Hvals Hapart) as (? & ? & _). done.
Qed.

End facts.

(** ** The statements at work on a sample memory *)

Import Samples.

Local Open Scope Z_scope.

Lemma handles_live (i : Z) : 0 ≤ i < 2 - 0 → is_Some (slots handles !! (0 + i)).
Proof.
  intros Hi. assert (i = 0 ∨ i = 1) as [-> | ->] by lia; vm_compute; eauto.
Qed.

Lemma handles_apart (i j : Z) : 0 ≤ i < 2 - 0 → 0 ≤ j < 2 - 0 → 0 + i ≠ 10 + j.
Proof. lia. Qed.

Lemma destroy_once_each_in_order_witness :
  0 ≤ 2 ∧ (Z.to_nat (2 - 0) ≤ 5)%nat
  ∧ ∃ m', destroy 5 0 2 handles = Done m'
      ∧ log m' = [Teardown 0; Teardown 1]
      ∧ (∀ p, teardowns p (log m')
              = (teardowns p (log handles) + if decide (0 ≤ p < 2)%Z then 1 else 0)%nat)
      ∧ (∀ q, slots m' !! q = if decide (0 ≤ q < 2) then None else slots handles !! q).
Proof.
  destruct (@destroy_once_each_in_order Z) as [_ Hrange].
  split; [lia|]. split; [vm_compute; lia|].
  apply (Hrange 5%nat 0 2 handles); [lia|vm_compute; lia].
Defined.

Lemma uninitialized_move_transfers_witness :
  0 ≤ 2 ∧ (Z.to_nat (2 - 0) ≤ 2)%nat
  ∧ ∃ m', uninitialized_move emptied 2 0 2 10 handles = Done (Iter 12, m')
      ∧ log m' = [Construct 10; Construct 11]
      ∧ slots m' !! 10 = Some 7 ∧ slots m' !! 11 = Some 8
      ∧ slots m' !! 0 = Some 0 ∧ slots m' !! 1 = Some 0.
Proof.
  split; [lia|]. split; [vm_compute; lia|].
  destruct (uninitialized_move_transfers emptied 2 0 2 10 handles)
    as (m' & Hrun & Hlog & _ & Hdst & Hsrc & _);
    [lia|vm_compute; lia|apply handles_live|apply handles_apart|].
  exists m'. split; [exact Hrun|]. split; [exact Hlog|].
  pose proof (Hdst 0) as Hd0. pose proof (Hdst 1) as Hd1.
  pose proof (Hsrc 0) as Hs0. pose proof (Hsrc 1) as Hs1.
  repeat split; [apply Hd0|apply Hd1|apply Hs0|apply Hs1]; lia.
Defined.

Lemma move_algorithms_return_witness :
  (∃ m', uninitialized_move emptied 2 0 2 10 handles = Done (Iter 12, m')
      ∧ log m' = [Construct 10; Construct 11]
      ∧ slots m' !! 10 = Some 7 ∧ slots m' !! 11 = Some 8
      ∧ slots m' !! 0 = Some 0 ∧ slots m' !! 1 = Some 0)
  ∧
  (∃ m', uninitialized_move_n emptied 0 2 10 handles = Done (IterPair 2 12, m')
      ∧ log m' = [Construct 10; Construct 11]
      ∧ slots m' !! 10 = Some 7 ∧ slots m' !! 0 = Some 0).
Proof.
  destruct (@move_algorithms_return Z emptied) as [Hrange Hcounted].
  split.
  - destruct (Hrange 2%nat 0 2 10 handles) as (m' & Hrun & Hlog & Hvals);
      [lia|vm_compute; lia|apply handles_live|].
    destruct (Hvals handles_apart) as [Hdst Hsrc].
    exists m'. split; [exact Hrun|]. split; [exact Hlog|].
    pose proof (Hdst 0) as Hd0. pose proof (Hdst 1) as Hd1.
    pose proof (Hsrc 0) as Hs0. pose proof (Hsrc 1) as Hs1.
    repeat split; [apply Hd0|apply Hd1|apply Hs0|apply Hs1]; lia.
  - destruct (Hcounted 0 2 10 handles handles_live) as (m' & Hrun & Hlog & Hvals).
    destruct (Hvals handles_apart) as [Hdst Hsrc].
    exists m'. split; [exact Hrun|]. split; [exact Hlog|].
    split; [apply (Hdst 0)|apply (Hsrc 0)]; lia.
Defined.

(** C6, as stated, fails: the algorithm that takes the source as a range
    returns the end of the destination alone, not a pair. *)
Lemma uninitialized_move_returns_one_iterator :
  ¬ (∀ (fuel : nat) (first last result : Z) (m : memory Z),
       first ≤ last →
       (Z.to_nat (last - first) ≤ fuel)%nat →
       (∀ i, 0 ≤ i < last - first → is_Some (slots m !! (first + i))) →
       ∃ m', uninitialized_move emptied fuel first last result m
             = Done (IterPair last (result + (last - first)), m')).
Proof.
  intros Hclaim.
  destruct (Hclaim 2%nat 0 2 10 handles) as (m' & Hrun);
    [lia|vm_compute; lia|apply handles_live|].
  vm_compute in Hrun. discriminate.
Qed.

End mstdFacts.

(** * More facts about owners: swap, assignment of null, scopes *)

Module OwnerMoreFacts.
Import Owner OwnerFacts.

Section facts.
Context {T : ctype} {D : Type} `{Deleter D}.
Implicit Types (w : world T D) (u : unique_ptr T D) (o a b : ref) (p : pointer).

Lemma construct_spec o p (d : D) w :
  owners w !! o = None →
  construct o p d w = Some (tt, World (<[o := UniquePtr d p]> (owners w)) (calls w)).
Proof. intros Ho. unfold construct. run_bind. by rewrite Ho. Qed.

(** X1: [a.swap(b)], and [swap(a, b)] outside the class, leave [a] with
    what [b] had and [b] with what [a] had, address and deleter alike,
    call no deleter and touch no other owner; the order of the two
    operands does not matter. *)
Theorem swap_exchanges a b ua ub w :
  owners w !! a = Some ua →
  owners w !! b = Some ub →
  ∃ w', swap a b w = Some (tt, w')
    ∧ owners w' !! a = Some ub
    ∧ owners w' !! b = Some ua
    ∧ calls w' = calls w
    ∧ (∀ j, j ≠ a → j ≠ b → owners w' !! j = owners w !! j)
    ∧ free_swap a b w = Some (tt, w')
    ∧ swap b a w = Some (tt, w').
Proof.
  intros Ha Hb. unfold free_swap. rewrite (swap_spec _ _ _ _ _ Ha Hb).
  eexists. split; [done|]. cbn [owners calls].
  destruct (decide (a = b)) as [->|Hne].
  - assert (ua = ub) as -> by congruence.
    rewrite lookup_insert_eq. repeat split; try done.
    + intros j Hj _. by rewrite !lookup_insert_ne.
    + by rewrite (swap_spec _ _ _ _ _ Hb Hb).
  - rewrite lookup_insert_eq, lookup_insert_ne, lookup_insert_eq by done.
    repeat split; try done.
    + intros j Hja Hjb. by rewrite !lookup_insert_ne.
    + rewrite (swap_spec _ _ _ _ _ Hb Ha). do 3 f_equal. by apply insert_insert_ne.
Qed.

(** X2: swapping the same two owners twice brings back the state there
    was, and swapping an owner with itself changes nothing. *)
Theorem swap_twice_restores a b ua ub w :
  owners w !! a = Some ua →
  owners w !! b = Some ub →
  ∃ w', swap a b w = Some (tt, w')
    ∧ swap a b w' = Some (tt, w)
    ∧ (a = b → w' = w).
Proof.
  intros Ha Hb. rewrite (swap_spec _ _ _ _ _ Ha Hb). eexists. split; [done|].
  assert (∀ os, os = owners w → w = World os (calls w)) as Hw
    by (intros os ->; by destruct w).
  split.
  - destruct (decide (a = b)) as [->|Hne].
    + assert (ua = ub) as -> by congruence.
      erewrite swap_spec; [|cbn; apply lookup_insert_eq..].
      cbn. do 2 f_equal. symmetry. apply Hw. rewrite !insert_insert_eq. by apply insert_id.
    + erewrite swap_spec; [|cbn..].
      2: { rewrite lookup_insert_ne by done. apply lookup_insert_eq. }
      2: { apply lookup_insert_eq. }
      cbn. do 2 f_equal. symmetry. apply Hw. apply map_eq. intros j.
      destruct (decide (j = b)) as [->|]; [by rewrite lookup_insert_eq|].
      rewrite lookup_insert_ne by done.
      destruct (decide (j = a)) as [->|]; [by rewrite lookup_insert_eq|].
      by rewrite !lookup_insert_ne.
  - intros ->. assert (ua = ub) as -> by congruence. symmetry. apply Hw.
    rewrite insert_insert_eq. by apply insert_id.
Qed.

(** X3: [o = nullptr] empties [o] and calls the deleter once on the
    address held, if there was one; assigning [nullptr] again changes
    nothing, and destroying [o] then calls no deleter. *)
Theorem assign_null_once o u w :
  owners w !! o = Some u →
  ∃ w', assign_null o w = Some (tt, w')
    ∧ owners w' !! o = Some (UniquePtr (deleter_store u) nullptr)
    ∧ calls w' = calls w ++ (if to_bool (ptr_ u) then [(deleter_store u, ptr_ u)] else [])
    ∧ assign_null o w' = Some (tt, w')
    ∧ ∃ w'', destroy o w' = Some (tt, w'') ∧ calls w'' = calls w'.
Proof.
  intros Ho. unfold assign_null. rewrite (reset_spec _ _ _ _ Ho).
  eexists. split; [done|]. cbn [owners calls]. rewrite lookup_insert_eq.
  do 2 (split; [done|]). split.
  - erewrite reset_spec; [|cbn; apply lookup_insert_eq]. cbn.
    by rewrite app_nil_r, insert_insert_eq.
  - erewrite destroy_spec; [|cbn; apply lookup_insert_eq]. cbn.
    eexists. split; [done|]. cbn. by rewrite app_nil_r.
Qed.

(** X4: an owner constructed from an address and a deleter and then
    destroyed leaves the owners as they were; the deleter it was given
    is called once on the address, or not at all if the address is
    null. *)
Theorem scope_deletes_once o p (d : D) w :
  owners w !! o = None →
  ∃ w1, construct o p d w = Some (tt, w1)
    ∧ get o w1 = Some (p, w1)
    ∧ ∃ w2, destroy o w1 = Some (tt, w2)
        ∧ owners w2 = owners w
        ∧ calls w2 = calls w ++ (if to_bool p then [(d, p)] else []).
Proof.
  intros Ho. rewrite (construct_spec _ _ _ _ Ho). eexists. split; [done|]. split.
  - unfold get. run_bind. by rewrite lookup_insert_eq.
  - erewrite destroy_spec; [|cbn; apply lookup_insert_eq]. cbn.
    eexists. split; [done|]. cbn. split; [|done].
    rewrite delete_insert_eq. by apply delete_id.
Qed.

(** X5: moving owner [a] into a new owner [b] and move-assigning [b]
    back to [a] calls no deleter and leaves [a] with the address and the
    deleter it had; [b] is left empty. *)
Theorem move_there_and_back a b ua w :
  owners w !! a = Some ua →
  owners w !! b = None →
  ∃ w1 w2, move_construct b a w = Some (tt, w1)
    ∧ move_assign a b w1 = Some (tt, w2)
    ∧ owners w2 !! a = Some ua
    ∧ owners w2 !! b = Some (UniquePtr (moved_from (deleter_store ua)) nullptr)
    ∧ calls w2 = calls w
    ∧ (∀ j, j ≠ a → j ≠ b → owners w2 !! j = owners w !! j).
Proof.
  intros Ha Hb. assert (a ≠ b) as Hne by congruence.
  rewrite (move_construct_spec _ _ _ _ Ha Hb). eexists. eexists. split; [done|].
  erewrite move_assign_spec; [|by apply not_eq_sym|cbn..].
  2: { rewrite lookup_insert_ne by done. apply lookup_insert_eq. }
  2: { apply lookup_insert_eq. }
  cbn. split; [done|]. cbn.
  rewrite lookup_insert_ne, lookup_insert_eq, lookup_insert_eq by done.
  rewrite app_nil_r. destruct ua as [da pa]. cbn. repeat split; try done.
  intros j Hja Hjb. by rewrite !lookup_insert_ne.
Qed.

End facts.

Import Samples.

Lemma swap_exchanges_witness :
  owners two_ints !! 0 = Some (int_owner 100 5)
  ∧ owners two_ints !! 1 = Some (int_owner 200 6)
  ∧ ∃ w', swap 0 1 two_ints = Some (tt, w')
      ∧ owners w' !! 0 = Some (int_owner 200 6)
      ∧ owners w' !! 1 = Some (int_owner 100 5)
      ∧ calls w' = []
      ∧ (∀ j, j ≠ 0 → j ≠ 1 → owners w' !! j = owners two_ints !! j)
      ∧ free_swap 0 1 two_ints = Some (tt, w')
      ∧ swap 1 0 two_ints = Some (tt, w').
Proof.
  do 2 (split; [reflexivity|]).
  exact (swap_exchanges 0 1 (int_owner 100 5) (int_owner 200 6) two_ints
           eq_refl eq_refl).
Defined.

Lemma swap_twice_restores_witness :
  owners two_ints !! 0 = Some (int_owner 100 5)
  ∧ owners two_ints !! 1 = Some (int_owner 200 6)
  ∧ ∃ w', swap 0 1 two_ints = Some (tt, w')
      ∧ swap 0 1 w' = Some (tt, two_ints)
      ∧ (0 = 1 → w' = two_ints).
Proof.
  do 2 (split; [reflexivity|]).
  exact (swap_twice_restores 0 1 (int_owner 100 5) (int_owner 200 6) two_ints
           eq_refl eq_refl).
Defined.

Lemma assign_null_once_witness :
  owners one_int !! 0 = Some (int_owner 100 5)
  ∧ ∃ w', assign_null 0 one_int = Some (tt, w')
      ∧ owners w' !! 0 = Some (int_owner 100 nullptr)
      ∧ calls w' = [(100%N, 5%N)]
      ∧ assign_null 0 w' = Some (tt, w')
      ∧ ∃ w'', destroy 0 w' = Some (tt, w'') ∧ calls w'' = calls w'.
Proof.
  split; [reflexivity|].
  exact (assign_null_once 0 (int_owner 100 5) one_int eq_refl).
Defined.

Lemma scope_deletes_once_witness :
  owners one_int !! 1 = None
  ∧ ∃ w1, construct 1 9%N 300%N one_int = Some (tt, w1)
      ∧ get 1 w1 = Some (9%N, w1)
      ∧ ∃ w2, destroy 1 w1 = Some (tt, w2)
          ∧ owners w2 = owners one_int
          ∧ calls w2 = [(300%N, 9%N)].
Proof.
  split; [reflexivity|].
  exact (scope_deletes_once 1 9%N 300%N one_int eq_refl).
Defined.

Lemma move_there_and_back_witness :
  owners one_int !! 0 = Some (int_owner 100 5)
  ∧ owners one_int !! 1 = None
  ∧ ∃ w1 w2, move_construct 1 0 one_int = Some (tt, w1)
      ∧ move_assign 0 1 w1 = Some (tt, w2)
      ∧ owners w2 !! 0 = Some (int_owner 100 5)
      ∧ owners w2 !! 1 = Some (int_owner 100 nullptr)
      ∧ calls w2 = []
      ∧ (∀ j, j ≠ 0 → j ≠ 1 → owners w2 !! j = owners one_int !! j).
Proof.
  do 2 (split; [reflexivity|]).
  exact (@move_there_and_back Scalar N _ 0 1 (int_owner 100 5) one_int eq_refl eq_refl).
Defined.

End OwnerMoreFacts.

(** * Facts about comparison with [nullptr] *)

Module NullCompareFacts.
Import Compare.

(** X6: each of the twelve comparisons of an owner with [nullptr] gives
    what the comparison of two owners gives when an empty owner, of any
    owner type, stands where [nullptr] stood. *)
Theorem null_comparisons_as_empty_owner {T T2 : ctype} {D D2 : Type}
    (x : unique_ptr T D) (d : D2) :
  let e : unique_ptr T2 D2 := UniquePtr d nullptr in
  operator_eq_null x = operator_eq x e
  ∧ operator_null_eq x = operator_eq e x
  ∧ operator_ne_null x = operator_ne x e
  ∧ operator_null_ne x = operator_ne e x
  ∧ operator_lt_null x = operator_lt x e
  ∧ operator_null_lt x = operator_lt e x
  ∧ operator_gt_null x = operator_gt x e
  ∧ operator_null_gt x = operator_gt e x
  ∧ operator_le_null x = operator_le x e
  ∧ operator_null_le x = operator_le e x
  ∧ operator_ge_null x = operator_ge x e
  ∧ operator_null_ge x = operator_ge e x.
Proof.
  destruct x as [dx px].
  unfold operator_eq_null, operator_null_eq, operator_ne_null, operator_null_ne,
    operator_lt_null, operator_null_lt, operator_gt_null, operator_null_gt,
    operator_le_null, operator_null_le, operator_ge_null, operator_null_ge,
    operator_bool, operator_eq, operator_ne, operator_le, operator_gt, operator_ge,
    operator_lt, to_bool, get. cbn [ptr_].
  rewrite !negb_involutive, (N.eqb_sym nullptr px). repeat split.
Qed.

(** X7: with null the lowest address, no owner is below [nullptr] and
    every owner is at or above it; an owner is above [nullptr] exactly
    when it is not empty, and at or below it exactly when it is empty. *)
Theorem null_is_least {T : ctype} {D : Type} (x : unique_ptr T D) :
  operator_lt_null x = false
  ∧ operator_null_gt x = false
  ∧ operator_ge_null x = true
  ∧ operator_null_le x = true
  ∧ operator_gt_null x = operator_bool x
  ∧ operator_null_lt x = operator_bool x
  ∧ operator_ne_null x = operator_bool x
  ∧ operator_le_null x = operator_eq_null x
  ∧ operator_null_ge x = operator_eq_null x
  ∧ (operator_eq_null x = true ↔ ptr_ x = nullptr).
Proof.
  destruct x as [dx px].
  cbv [operator_eq_null operator_ne_null
    operator_lt_null operator_null_lt operator_gt_null operator_null_gt
    operator_le_null operator_null_le operator_ge_null operator_null_ge
    operator_bool less to_bool get nullptr ptr_].
  destruct (N.ltb_spec px 0), (N.ltb_spec 0 px), (N.eqb_spec px 0);
    try lia; cbn; repeat split; try done; intros; first [congruence | lia].
Qed.

End NullCompareFacts.

(** * Facts about array owners on the free store *)

Module ArrayFacts.
Import Factory.





Import Samples.


End ArrayFacts.

(** * Facts about [std::align] *)

Module AlignFacts.
Import Align.

Local Open Scope Z_scope.

Lemma wrap_small z : 0 ≤ z < 2 ^ 32 → wrap z = z.
Proof. intros Hz. unfold wrap, bits. by apply Z.mod_small. Qed.

Lemma pow2_bounds k : 0 ≤ k < 32 → 0 < 2 ^ k ≤ 2 ^ 31.
Proof.
  intros Hk. split; [apply Z.pow_pos_nonneg; lia|].
  apply Z.pow_le_mono_r; lia.
Qed.

(** Masking with [~(2^k - 1)] clears the low [k] bits. *)
Lemma mask_rounds_down k x :
  0 ≤ k < 32 → 0 ≤ x < 2 ^ 32 →
  Z.land x (complement (wrap (2 ^ k - 1))) = 2 ^ k * (x / 2 ^ k).
Proof.
  intros Hk Hx. pose proof (pow2_bounds k Hk) as Ha.
  rewrite wrap_small by lia.
  assert (Z.land x (complement (2 ^ k - 1)) = Z.ldiff x (Z.ones k)) as ->.
  { apply Z.bits_inj'. intros i Hi. unfold complement, wrap, bits.
    rewrite Z.land_spec, Z.ldiff_spec, Z.ones_equiv, <- Z.sub_1_r.
    destruct (decide (i < 32)) as [Hlt|Hge].
    - by rewrite Z.mod_pow2_bits_low, Z.lnot_spec by lia.
    - rewrite Z.mod_pow2_bits_high by lia.
      assert (Z.testbit x i = false) as ->; [|done].
      destruct (decide (x = 0)) as [->|Hx0]; [apply Z.bits_0|].
      apply Z.bits_above_log2; [lia|].
      assert (Z.log2 x < 32); [|lia]. apply Z.log2_lt_pow2; lia. }
  rewrite Z.ldiff_ones_r by lia.
  rewrite Z.shiftl_mul_pow2, Z.shiftr_div_pow2 by lia. lia.
Qed.

Lemma align_eq k size p sp :
  0 ≤ k < 32 → 0 ≤ p < 2 ^ 32 →
  align (2 ^ k) size p sp
  = let new_addr := 2 ^ k * (((p + 2 ^ k - 1) mod 2 ^ 32) / 2 ^ k) in
    let pad := (new_addr - p) mod 2 ^ 32 in
    if (pad + size) mod 2 ^ 32 <=? sp then
      Aligned new_addr new_addr ((sp - pad) mod 2 ^ 32)
    else Aligned 0 p sp.
Proof.
  intros Hk Hp. pose proof (pow2_bounds k Hk) as Ha. unfold align.
  rewrite mask_rounds_down; [|done|unfold wrap, bits; apply Z.mod_pos_bound; lia].
  rewrite (wrap_small (2 ^ k - 1)) by lia. unfold wrap, bits.
  by replace (p + (2 ^ k - 1)) with (p + 2 ^ k - 1) by lia.
Qed.

(** Rounding [p] up to a multiple of [a]. *)
Lemma round_up_facts a p :
  0 < a → 0 ≤ p →
  a * ((p + a - 1) / a) - p = (- p) mod a
  ∧ 0 ≤ (- p) mod a < a
  ∧ (p + (- p) mod a) mod a = 0
  ∧ ∀ q, p ≤ q → q mod a = 0 → p + (- p) mod a ≤ q.
Proof.
  intros Ha Hp.
  assert ((p + (- p) mod a) mod a = 0) as Hal.
  { rewrite Z.add_mod_idemp_r by lia. replace (p + - p) with 0 by lia.
    by apply Z.mod_0_l; lia. }
  pose proof (Z.mod_pos_bound (- p) a Ha) as Hpad.
  split; [|split; [done|split; [done|]]].
  - apply Z.div_exact in Hal; [|lia].
    assert ((p + a - 1) / a = (p + (- p) mod a) / a) as ->; [|lia].
    set (m := (- p) mod a) in *. set (c := (p + m) / a) in *.
    symmetry. apply Z.div_unique with (r := a - 1 - m); lia.
  - intros q Hq Hqa. apply Z.div_exact in Hqa, Hal; [|lia..].
    set (m := (- p) mod a) in *.
    destruct (decide (p + m ≤ q)) as [|Hlt]; [done|]. exfalso.
    assert (q / a < (p + m) / a) by nia.
    assert (q / a + 1 ≤ (p + m) / a) by lia.
    nia.
Qed.

Lemma align_no_wrap k size p sp :
  0 ≤ k < 32 → 0 ≤ p → p + 2 ^ k - 1 < 2 ^ 32 →
  align (2 ^ k) size p sp
  = let pad := (- p) mod 2 ^ k in
    if (pad + size) mod 2 ^ 32 <=? sp then
      Aligned (p + pad) (p + pad) ((sp - pad) mod 2 ^ 32)
    else Aligned 0 p sp.
Proof.
  intros Hk Hp Hfit. pose proof (pow2_bounds k Hk) as Ha.
  destruct (round_up_facts (2 ^ k) p) as (Hup & Hpad & _); [lia..|].
  rewrite align_eq by lia. cbv zeta.
  rewrite (Z.mod_small (p + 2 ^ k - 1)) by lia.
  replace (2 ^ k * ((p + 2 ^ k - 1) / 2 ^ k)) with (p + (- p) mod 2 ^ k) by lia.
  replace (p + (- p) mod 2 ^ k - p) with ((- p) mod 2 ^ k) by lia.
  by rewrite (Z.mod_small ((- p) mod 2 ^ k)) by lia.
Qed.

(** X11: when the first address at or after [ptr] that is a multiple of
    [alignment] leaves room for [size] bytes within [space], [align]
    returns that address and stores it in [ptr], and takes the bytes
    skipped off [space]: the address is aligned, less than [alignment]
    above the old one, the least such, and [size] bytes from it end
    within the old buffer. *)
Theorem align_fits k size p sp :
  0 ≤ k < 32 → 0 ≤ p → p + 2 ^ k - 1 < 2 ^ 32 →
  0 ≤ size → sp < 2 ^ 32 →
  (- p) mod 2 ^ k + size ≤ sp →
  align (2 ^ k) size p sp
    = Aligned (p + (- p) mod 2 ^ k) (p + (- p) mod 2 ^ k) (sp - (- p) mod 2 ^ k)
  ∧ ptr (align (2 ^ k) size p sp) mod 2 ^ k = 0
  ∧ p ≤ ptr (align (2 ^ k) size p sp) < p + 2 ^ k
  ∧ ptr (align (2 ^ k) size p sp) + size ≤ p + sp
  ∧ 0 ≤ space (align (2 ^ k) size p sp) ≤ sp
  ∧ ∀ q, p ≤ q → q mod 2 ^ k = 0 → ptr (align (2 ^ k) size p sp) ≤ q.
Proof.
  intros Hk Hp Hfit Hsize Hsp Hroom. pose proof (pow2_bounds k Hk) as Ha.
  destruct (round_up_facts (2 ^ k) p) as (_ & Hpad & Hal & Hleast); [lia..|].
  rewrite align_no_wrap by done. cbv zeta.
  rewrite (Z.mod_small (_ + size)), (Z.mod_small (sp - _)) by lia.
  rewrite (proj2 (Z.leb_le _ _)) by done. cbn [ptr space].
  repeat split; try done; lia.
Qed.

(** X12: when [size] bytes do not fit after the bytes skipped for
    alignment, [align] returns null and leaves [ptr] and [space] as they
    were. *)
Theorem align_fails k size p sp :
  0 ≤ k < 32 → 0 ≤ p → p + 2 ^ k - 1 < 2 ^ 32 →
  0 ≤ sp →
  sp < (- p) mod 2 ^ k + size < 2 ^ 32 →
  align (2 ^ k) size p sp = Aligned 0 p sp.
Proof.
  intros Hk Hp Hfit Hsp Hroom. pose proof (pow2_bounds k Hk) as Ha.
  destruct (round_up_facts (2 ^ k) p) as (_ & Hpad & _); [lia..|].
  rewrite align_no_wrap by done. cbv zeta.
  rewrite (Z.mod_small (_ + size)) by lia.
  by rewrite (proj2 (Z.leb_gt _ _)) by lia.
Qed.

(** X13: the test [pad + size <= space] is made on the wrapped sum.
    When [pad + size] reaches 2^32, [align] takes the request to fit as
    soon as what is left of the sum is at most [space]: it returns the
    aligned address although [size] bytes from there go past the end of
    the buffer. *)
Theorem align_size_overflow k size p sp :
  0 ≤ k < 32 → 0 ≤ p → p + 2 ^ k - 1 < 2 ^ 32 →
  size < 2 ^ 32 → 0 ≤ sp < 2 ^ 32 →
  2 ^ 32 ≤ (- p) mod 2 ^ k + size →
  (- p) mod 2 ^ k + size - 2 ^ 32 ≤ sp →
  align (2 ^ k) size p sp
    = Aligned (p + (- p) mod 2 ^ k) (p + (- p) mod 2 ^ k)
              ((sp - (- p) mod 2 ^ k) mod 2 ^ 32)
  ∧ p + sp < ptr (align (2 ^ k) size p sp) + size.
Proof.
  intros Hk Hp Hfit Hsize Hsp Hover Hrest. pose proof (pow2_bounds k Hk) as Ha.
  destruct (round_up_facts (2 ^ k) p) as (_ & Hpad & _); [lia..|].
  rewrite align_no_wrap by done. cbv zeta.
  assert (((- p) mod 2 ^ k + size) mod 2 ^ 32 = (- p) mod 2 ^ k + size - 2 ^ 32) as ->.
  { symmetry. apply Z.mod_unique with (q := 1); lia. }
  rewrite (proj2 (Z.leb_le _ _)) by done. cbn [ptr]. split; [done|]. lia.
Qed.

(** X14: aligning again what a successful [align] has produced changes
    nothing: the address is returned as it is and [space] stays. *)
Theorem align_twice k size p sp :
  0 ≤ k < 32 → 0 ≤ p → p + 2 ^ k - 1 < 2 ^ 32 →
  0 ≤ size → sp < 2 ^ 32 →
  (- p) mod 2 ^ k + size ≤ sp →
  align (2 ^ k) size (ptr (align (2 ^ k) size p sp)) (space (align (2 ^ k) size p sp))
  = align (2 ^ k) size p sp.
Proof.
  intros Hk Hp Hfit Hsize Hsp Hroom. pose proof (pow2_bounds k Hk) as Ha.
  destruct (round_up_facts (2 ^ k) p) as (_ & Hpad & Hal & Hleast); [lia..|].
  assert (align (2 ^ k) size p sp
          = Aligned (p + (- p) mod 2 ^ k) (p + (- p) mod 2 ^ k) (sp - (- p) mod 2 ^ k)) as ->.
  { rewrite align_no_wrap by done. cbv zeta.
    rewrite (Z.mod_small (_ + size)), (Z.mod_small (sp - _)) by lia.
    by rewrite (proj2 (Z.leb_le _ _)) by done. }
  cbn [ptr space]. set (p' := p + (- p) mod 2 ^ k) in *.
  assert ((- p') mod 2 ^ k = 0) as Hpad'.
  { apply Z.div_exact in Hal; [|lia]. rewrite Hal.
    replace (- (2 ^ k * (p' / 2 ^ k))) with ((- (p' / 2 ^ k)) * 2 ^ k) by lia.
    apply Z.mod_mul. lia. }
  assert (p' + 2 ^ k - 1 < 2 ^ 32) as Hfit'.
  { apply Z.div_exact in Hal; [|lia].
    assert (∃ b, 2 ^ 32 = 2 ^ k * b) as [b Hb].
    { exists (2 ^ (32 - k)). rewrite <- Z.pow_add_r by lia. f_equal. lia. }
    set (c := p' / 2 ^ k) in *. set (a := 2 ^ k) in *.
    assert (p' < 2 ^ 32) by (subst p'; lia).
    assert (c < b) by nia. nia. }
  rewrite align_no_wrap by (done || lia). cbv zeta. rewrite Hpad'.
  rewrite Z.add_0_l, Z.add_0_r, Z.sub_0_r, (Z.mod_small size), (Z.mod_small (sp - _)) by lia.
  by rewrite (proj2 (Z.leb_le _ _)) by lia.
Qed.

(** X15: for a misaligned [ptr] so close to the top of the address space
    that rounding up wraps, the aligned address computed is 0.  [align]
    then returns null whether or not it takes the request to fit, and
    where it does, it has set [ptr] to null and reduced [space]. *)
Theorem align_address_wrap k size p sp :
  0 ≤ k < 32 → p < 2 ^ 32 → 2 ^ 32 ≤ p + 2 ^ k - 1 →
  result (align (2 ^ k) size p sp) = 0
  ∧ (0 ≤ size → sp < 2 ^ 32 → 2 ^ 32 - p + size ≤ sp →
     align (2 ^ k) size p sp = Aligned 0 0 (sp - (2 ^ 32 - p))).
Proof.
  intros Hk Hp Hwrap. pose proof (pow2_bounds k Hk) as Ha.
  rewrite align_eq by lia. cbv zeta.
  assert ((p + 2 ^ k - 1) mod 2 ^ 32 = p + 2 ^ k - 1 - 2 ^ 32) as ->.
  { symmetry. apply Z.mod_unique with (q := 1); lia. }
  rewrite (Z.div_small (p + 2 ^ k - 1 - 2 ^ 32)) by lia.
  rewrite Z.mul_0_r, Z.sub_0_l.
  assert ((- p) mod 2 ^ 32 = 2 ^ 32 - p) as ->.
  { symmetry. apply Z.mod_unique with (q := -1); lia. }
  split.
  - by destruct (_ <=? sp).
  - intros Hsize Hsp Hroom.
    rewrite (Z.mod_small (_ + size)), (Z.mod_small (sp - _)) by lia.
    by rewrite (proj2 (Z.leb_le _ _)) by done.
Qed.

Lemma align_fits_witness :
  0 ≤ 3 < 32 ∧ 0 ≤ 13 ∧ 13 + 2 ^ 3 - 1 < 2 ^ 32 ∧ 0 ≤ 16 ∧ 40 < 2 ^ 32
  ∧ (- 13) mod 2 ^ 3 + 16 ≤ 40
  ∧ align (2 ^ 3) 16 13 40 = Aligned 16 16 37.
Proof.
  assert (0 ≤ 3 < 32) as Hk by lia.
  assert (13 + 2 ^ 3 - 1 < 2 ^ 32) as Hfit by (vm_compute; done).
  assert (40 < 2 ^ 32) as Hsp by (vm_compute; done).
  assert ((- 13) mod 2 ^ 3 + 16 ≤ 40) as Hroom by (vm_compute; discriminate).
  refine (conj Hk (conj _ (conj Hfit (conj _ (conj Hsp (conj Hroom _)))))); [lia..|].
  exact (proj1 (align_fits 3 16 13 40 Hk ltac:(lia) Hfit ltac:(lia) Hsp Hroom)).
Defined.

Lemma align_fails_witness :
  0 ≤ 3 < 32 ∧ 0 ≤ 13 ∧ 13 + 2 ^ 3 - 1 < 2 ^ 32 ∧ 0 ≤ 10
  ∧ 10 < (- 13) mod 2 ^ 3 + 16 < 2 ^ 32
  ∧ align (2 ^ 3) 16 13 10 = Aligned 0 13 10.
Proof.
  assert (0 ≤ 3 < 32) as Hk by lia.
  assert (13 + 2 ^ 3 - 1 < 2 ^ 32) as Hfit by (vm_compute; done).
  assert (10 < (- 13) mod 2 ^ 3 + 16 < 2 ^ 32) as Hroom by (vm_compute; done).
  refine (conj Hk (conj _ (conj Hfit (conj _ (conj Hroom _))))); [lia..|].
  exact (align_fails 3 16 13 10 Hk ltac:(lia) Hfit ltac:(lia) Hroom).
Defined.

Lemma align_size_overflow_witness :
  align (2 ^ 3) (2 ^ 32 - 2) 13 8 = Aligned 16 16 5
  ∧ 13 + 8 < 16 + (2 ^ 32 - 2).
Proof.
  assert (0 ≤ 3 < 32) as Hk by lia.
  assert (13 + 2 ^ 3 - 1 < 2 ^ 32) as Hfit by (vm_compute; done).
  assert (2 ^ 32 - 2 < 2 ^ 32) as Hsize by (vm_compute; done).
  assert (0 ≤ 8 < 2 ^ 32) as Hsp by (vm_compute; split; [discriminate|done]).
  assert (2 ^ 32 ≤ (- 13) mod 2 ^ 3 + (2 ^ 32 - 2)) as Hover by (vm_compute; discriminate).
  assert ((- 13) mod 2 ^ 3 + (2 ^ 32 - 2) - 2 ^ 32 ≤ 8) as Hrest
    by (vm_compute; discriminate).
  exact (align_size_overflow 3 (2 ^ 32 - 2) 13 8 Hk ltac:(lia) Hfit Hsize Hsp Hover Hrest).
Defined.

Lemma align_twice_witness :
  align (2 ^ 3) 16 (ptr (align (2 ^ 3) 16 13 40)) (space (align (2 ^ 3) 16 13 40))
  = align (2 ^ 3) 16 13 40.
Proof.
  assert (0 ≤ 3 < 32) as Hk by lia.
  assert (13 + 2 ^ 3 - 1 < 2 ^ 32) as Hfit by (vm_compute; done).
  assert (40 < 2 ^ 32) as Hsp by (vm_compute; done).
  assert ((- 13) mod 2 ^ 3 + 16 ≤ 40) as Hroom by (vm_compute; discriminate).
  exact (align_twice 3 16 13 40 Hk ltac:(lia) Hfit ltac:(lia) Hsp Hroom).
Defined.

Lemma align_address_wrap_witness :
  result (align (2 ^ 3) 1 (2 ^ 32 - 3) 8) = 0
  ∧ align (2 ^ 3) 1 (2 ^ 32 - 3) 8 = Aligned 0 0 (8 - (2 ^ 32 - (2 ^ 32 - 3))).
Proof.
  assert (0 ≤ 3 < 32) as Hk by lia.
  assert (2 ^ 32 - 3 < 2 ^ 32) as Hp by (vm_compute; done).
  assert (2 ^ 32 ≤ 2 ^ 32 - 3 + 2 ^ 3 - 1) as Hwrap by (vm_compute; discriminate).
  destruct (align_address_wrap 3 1 (2 ^ 32 - 3) 8 Hk Hp Hwrap) as [Hnull Hfit].
  split; [exact Hnull|]. apply Hfit; [lia|vm_compute; done|vm_compute; discriminate].
Defined.

End AlignFacts.

(** * More facts about the uninitialized-range algorithms *)

Module RangeFacts.
Import mstd mstdFacts.

Section facts.
Context {V : Type}.
Implicit Types (m : memory V) (first last result n p q : Z) (v : V).

Local Open Scope Z_scope.

(** ** Copying *)

Lemma uninitialized_copy_n_unfold first n result m :
  uninitialized_copy_n first n result m
  = if decide (n > 0) then
      match copy_from result first m with
      | None => Undefined
      | Some m' => uninitialized_copy_n (first + 1) (n - 1) (result + 1) m'
      end
    else Done (result, m).
Proof.
  simp uninitialized_copy_n. destruct (decide (n > 0)); simp uninitialized_copy_n; [|done].
  destruct (copy_from result first m); by simp uninitialized_copy_n.
Qed.

Lemma move_by_identity_is_copy_nat (k : nat) : ∀ first result m,
  uninitialized_move_n (λ v, v) first (Z.of_nat k) result m
  = match uninitialized_copy_n first (Z.of_nat k) result m with
    | Done (r, m') => Done (IterPair (first + Z.of_nat k) r, m')
    | Undefined => Undefined
    | Timeout => Timeout
    end.
Proof.
  induction k as [|k IH]; intros first result m;
    rewrite uninitialized_move_n_unfold, uninitialized_copy_n_unfold.
  - rewrite !decide_False by lia. by rewrite Z.add_0_r.
  - rewrite !decide_True by lia. unfold construct_from, copy_from.
    destruct (slots m !! first) as [v|] eqn:Hv; [|done].
    rewrite (insert_id (slots m) first v Hv).
    replace (Z.of_nat (S k) - 1) with (Z.of_nat k) by lia. rewrite IH.
    destruct (uninitialized_copy_n _ _ _ _) as [[r m']| |]; [|done..].
    do 3 f_equal. lia.
Qed.

(** X16: [uninitialized_move_n] on values whose move leaves them as they
    were is [uninitialized_copy_n]: the same memory and the same log,
    the same end of the destination, and an undefined read in the one
    exactly when in the other. *)
Theorem move_by_identity_is_copy first n result m :
  uninitialized_move_n (λ v, v) first n result m
  = match uninitialized_copy_n first n result m with
    | Done (r, m') => Done (IterPair (first + Z.max 0 n) r, m')
    | Undefined => Undefined
    | Timeout => Timeout
    end.
Proof.
  destruct (decide (0 ≤ n)) as [Hn|Hn].
  - rewrite Z.max_r by done. destruct (Z_of_nat_complete n Hn) as [k ->].
    apply move_by_identity_is_copy_nat.
  - rewrite uninitialized_move_n_unfold, uninitialized_copy_n_unfold.
    rewrite !decide_False by lia. by rewrite Z.max_l, Z.add_0_r by lia.
Qed.

(** X17: [uninitialized_copy_n] on [n] live source slots returns the
    destination advanced by [n] (by nothing for [n <= 0]) and constructs
    the destination slots in order; with the destination apart from the
    source each destination slot holds a copy of its source slot, and no
    other slot, the source included, has changed. *)
Theorem uninitialized_copy_n_copies first n result m :
  (∀ i, 0 ≤ i < n → is_Some (slots m !! (first + i))) →
  ∃ m', uninitialized_copy_n first n result m = Done (result + Z.max 0 n, m')
    ∧ log m' = log m ++ (Construct <$> seqZ result n)
    ∧ ((∀ i j, 0 ≤ i < n → 0 ≤ j < n → first + i ≠ result + j) →
       (∀ i, 0 ≤ i < n → slots m' !! (result + i) = slots m !! (first + i))
       ∧ (∀ q, ¬ (result ≤ q < result + n) → slots m' !! q = slots m !! q)).
Proof.
  intros Hlive.
  destruct (uninitialized_move_n_spec (λ v, v) first n result m Hlive)
    as (m' & Hrun & Hlog & Hvals).
  rewrite move_by_identity_is_copy in Hrun.
  destruct (uninitialized_copy_n first n result m) as [[r m'']| |]; [|done..].
  injection Hrun as -> ->. exists m'. do 2 (split; [done|]).
  intros Hapart. destruct (Hvals Hapart) as (Hdst & Hsrc & Hrest).
  split; [done|]. intros q Hq.
  destruct (decide (first ≤ q < first + n)) as [Hin|Hout]; [|by apply Hrest].
  replace q with (first + (q - first)) by lia. rewrite Hsrc by lia.
  by destruct (slots m !! (first + (q - first))).
Qed.

(** ** Construction in place *)

Lemma default_construct_n_unfold v fuel first n m :
  uninitialized_default_construct_n v fuel first n m
  = if decide (n ≠ 0) then
      match fuel with
      | O => Timeout
      | S fuel' =>
          uninitialized_default_construct_n v fuel' (first + 1) (n - 1)
            (construct_with v first m)
      end
    else Done (first, m).
Proof. by destruct fuel. Qed.

Lemma default_construct_unfold v fuel first last m :
  uninitialized_default_construct v fuel first last m
  = if decide (first ≠ last) then
      match fuel with
      | O => Timeout
      | S fuel' =>
          uninitialized_default_construct v fuel' (first + 1) last
            (construct_with v first m)
      end
    else Done m.
Proof. by destruct fuel. Qed.

(** The value-initializing loops are the default-initializing ones but
    for the value placed. *)
Lemma value_construct_n_as_default v fuel : ∀ first n m,
  uninitialized_value_construct_n v fuel first n m
  = uninitialized_default_construct_n v fuel first n m.
Proof.
  induction fuel as [|fuel IH]; intros first n m; cbn; [done|].
  destruct (decide (n ≠ 0)); [apply IH|done].
Qed.

Lemma value_construct_as_default v fuel : ∀ first last m,
  uninitialized_value_construct v fuel first last m
  = uninitialized_default_construct v fuel first last m.
Proof.
  induction fuel as [|fuel IH]; intros first last m; cbn; [done|].
  destruct (decide (first ≠ last)); [apply IH|done].
Qed.

Lemma default_construct_n_steps v (k : nat) : ∀ fuel first m,
  (k ≤ fuel)%nat →
  ∃ m', uninitialized_default_construct_n v fuel first (Z.of_nat k) m
        = Done (first + Z.of_nat k, m')
    ∧ log m' = log m ++ (Construct <$> seqZ first (Z.of_nat k))
    ∧ ∀ q, slots m' !! q
           = if decide (first ≤ q < first + Z.of_nat k) then Some v else slots m !! q.
Proof.
  induction k as [|k IH]; intros fuel first m Hfuel;
    rewrite default_construct_n_unfold.
  - rewrite decide_False by lia. exists m. rewrite Z.add_0_r, app_nil_r.
    do 2 (split; [done|]). intros q. by rewrite decide_False by lia.
  - rewrite decide_True by lia. destruct fuel as [|fuel]; [lia|].
    replace (Z.of_nat (S k) - 1) with (Z.of_nat k) by lia.
    destruct (IH fuel (first + 1) (construct_with v first m)) as (m' & -> & Hlog & Hslots);
      [lia|].
    exists m'. split; [do 2 f_equal; lia|]. split.
    + rewrite Hlog. cbn [construct_with log]. rewrite <- app_assoc. f_equal.
      rewrite (seqZ_cons first) by lia. cbn. do 3 f_equal; lia.
    + intros q. rewrite Hslots. cbn [construct_with slots].
      destruct (decide (q = first)) as [->|Hq].
      * rewrite lookup_insert_eq. rewrite decide_False by lia.
        by rewrite decide_True by lia.
      * rewrite lookup_insert_ne by done.
        destruct (decide (first + 1 ≤ q < first + 1 + Z.of_nat k)).
        -- by rewrite decide_True by lia.
        -- by rewrite decide_False by lia.
Qed.

Lemma default_construct_as_counted v fuel : ∀ first last m,
  first ≤ last →
  uninitialized_default_construct v fuel first last m
  = match uninitialized_default_construct_n v fuel first (last - first) m with
    | Done (_, m') => Done m'
    | Undefined => Undefined
    | Timeout => Timeout
    end.
Proof.
  induction fuel as [|fuel IH]; intros first last m Hle;
    rewrite default_construct_unfold, default_construct_n_unfold.
  - destruct (decide (first = last)) as [->|Hne].
    + rewrite decide_False by (intros ?; done). by rewrite decide_False by lia.
    + by rewrite !decide_True by (done || lia).
  - destruct (decide (first = last)) as [->|Hne].
    + rewrite decide_False by (intros ?; done). by rewrite decide_False by lia.
    + rewrite !decide_True by (done || lia). rewrite IH by lia.
      by replace (last - (first + 1)) with (last - first - 1) by lia.
Qed.

(** X18: the four construction loops, given a count [n >= 0] or a range
    with [first <= last] and fuel for that many iterations, construct
    exactly the slots covered, in order, each with a default-initialized
    value (the first two) or a value-initialized one (the other two), and
    leave every other slot alone; the counted forms return the position
    after the last slot. *)
Theorem construct_loops_fill d z fuel first n m :
  0 ≤ n →
  (Z.to_nat n ≤ fuel)%nat →
  ∃ md mz,
    uninitialized_default_construct_n d fuel first n m = Done (first + n, md)
    ∧ uninitialized_default_construct d fuel first (first + n) m = Done md
    ∧ uninitialized_value_construct_n z fuel first n m = Done (first + n, mz)
    ∧ uninitialized_value_construct z fuel first (first + n) m = Done mz
    ∧ log md = log m ++ (Construct <$> seqZ first n)
    ∧ log mz = log m ++ (Construct <$> seqZ first n)
    ∧ (∀ q, slots md !! q = if decide (first ≤ q < first + n) then Some d else slots m !! q)
    ∧ (∀ q, slots mz !! q = if decide (first ≤ q < first + n) then Some z else slots m !! q).
Proof.
  intros Hn Hfuel. destruct (Z_of_nat_complete n Hn) as [k ->].
  rewrite Nat2Z.id in Hfuel.
  destruct (default_construct_n_steps d k fuel first m Hfuel) as (md & Hd & Hlogd & Hsd).
  destruct (default_construct_n_steps z k fuel first m Hfuel) as (mz & Hz & Hlogz & Hsz).
  assert (∀ v mv,
    uninitialized_default_construct_n v fuel first (Z.of_nat k) m
      = Done (first + Z.of_nat k, mv) →
    uninitialized_default_construct v fuel first (first + Z.of_nat k) m = Done mv) as Hrange.
  { intros v mv Hv. rewrite default_construct_as_counted by lia.
    replace (first + Z.of_nat k - first) with (Z.of_nat k) by lia. by rewrite Hv. }
  exists md, mz. split; [done|]. split; [by apply Hrange|].
  split; [exact (eq_trans (value_construct_n_as_default z fuel first _ m) Hz)|].
  split; [|done].
  exact (eq_trans (value_construct_as_default z fuel first _ m) (Hrange z mz Hz)).
Qed.

(** X20: value-constructing [n] slots and then destroying the same [n]
    slots constructs each of them once and tears each of them down once,
    constructions first, and leaves the slots raw; where they were raw
    before, the memory holds exactly the values it held. *)
Theorem construct_then_destroy z fuel first n m :
  0 ≤ n →
  (Z.to_nat n ≤ fuel)%nat →
  ∃ m1 m2,
    uninitialized_value_construct_n z fuel first n m = Done (first + n, m1)
    ∧ destroy_n first n m1 = (first + n, m2)
    ∧ log m2 = log m ++ (Construct <$> seqZ first n) ++ (Teardown <$> seqZ first n)
    ∧ (∀ q, slots m2 !! q = if decide (first ≤ q < first + n) then None else slots m !! q)
    ∧ ((∀ q, first ≤ q < first + n → slots m !! q = None) → slots m2 = slots m).
Proof.
  intros Hn Hfuel. destruct (Z_of_nat_complete n Hn) as [k ->].
  rewrite Nat2Z.id in Hfuel.
  destruct (default_construct_n_steps z k fuel first m Hfuel) as (m1 & Hrun & Hlog1 & Hs1).
  pose proof (eq_trans (value_construct_n_as_default z fuel first _ m) Hrun) as Hrun'.
  destruct (destroy_n_spec first (Z.of_nat k) m1) as (m2 & Hd & Hlog2 & Hs2).
  rewrite Z.max_r in Hd by lia.
  exists m1, m2. do 2 (split; [done|]).
  assert (∀ q, slots m2 !! q
               = if decide (first ≤ q < first + Z.of_nat k) then None else slots m !! q) as Hs.
  { intros q. rewrite Hs2, Hs1. by destruct (decide (first ≤ q < first + Z.of_nat k)). }
  split; [by rewrite Hlog2, Hlog1, <- app_assoc|]. split; [done|].
  intros Hraw. apply map_eq. intros q. rewrite Hs.
  destruct (decide (first ≤ q < first + Z.of_nat k)); [by rewrite Hraw|done].
Qed.

(** ** Relocation, and ranges in pieces *)

(** X21: moving [n] live values to a destination apart from them and
    then destroying the [n] source slots relocates the values: each
    destination slot holds what its source slot held, each source slot
    is torn down once, after all the constructions, and is left raw, and
    no other slot has changed. *)
Theorem move_then_destroy_relocates (moved : V → V) first n result m :
  (∀ i, 0 ≤ i < n → is_Some (slots m !! (first + i))) →
  (∀ i j, 0 ≤ i < n → 0 ≤ j < n → first + i ≠ result + j) →
  ∃ m1 m2,
    uninitialized_move_n moved first n result m
      = Done (IterPair (first + Z.max 0 n) (result + Z.max 0 n), m1)
    ∧ destroy_n first n m1 = (first + Z.max 0 n, m2)
    ∧ log m2 = log m ++ (Construct <$> seqZ result n) ++ (Teardown <$> seqZ first n)
    ∧ (∀ i, 0 ≤ i < n → slots m2 !! (result + i) = slots m !! (first + i))
    ∧ (∀ i, 0 ≤ i < n → slots m2 !! (first + i) = None)
    ∧ (∀ q, ¬ (first ≤ q < first + n) → ¬ (result ≤ q < result + n) →
            slots m2 !! q = slots m !! q).
Proof.
  intros Hlive Hapart.
  destruct (uninitialized_move_n_spec moved first n result m Hlive)
    as (m1 & Hrun & Hlog1 & Hvals).
  destruct (Hvals Hapart) as (Hdst & Hsrc & Hrest).
  destruct (destroy_n_spec first n m1) as (m2 & Hd & Hlog2 & Hs2).
  exists m1, m2. do 2 (split; [done|]).
  split; [by rewrite Hlog2, Hlog1, <- app_assoc|]. split; [|split].
  - intros i Hi. rewrite Hs2, decide_False; [by apply Hdst|].
    intros Hin. apply (Hapart (result + i - first) i); lia.
  - intros i Hi. rewrite Hs2. by rewrite decide_True by lia.
  - intros q Hq1 Hq2. rewrite Hs2, decide_False by done. by apply Hrest.
Qed.

Lemma destroy_n_split_nat (a : nat) : ∀ first b m,
  0 ≤ b →
  destroy_n first (Z.of_nat a + b) m
  = destroy_n (first + Z.of_nat a) b (destroy_n first (Z.of_nat a) m).2.
Proof.
  induction a as [|a IH]; intros first b m Hb.
  - rewrite (destroy_n_unfold first (Z.of_nat 0)), decide_False by lia. cbn [snd].
    by rewrite Z.add_0_l, Z.add_0_r.
  - rewrite (destroy_n_unfold first (Z.of_nat (S a) + b)),
      (destroy_n_unfold first (Z.of_nat (S a))), !decide_True by lia.
    replace (Z.of_nat (S a) + b - 1) with (Z.of_nat a + b) by lia.
    replace (Z.of_nat (S a) - 1) with (Z.of_nat a) by lia.
    rewrite IH by done. f_equal. lia.
Qed.

(** X22: destroying a run of slots in two pieces, the first up to some
    middle position and the second from there on, is destroying it in
    one go: the same memory and the same log. *)
Theorem destroy_in_two_pieces fuel first mid last m :
  first ≤ mid → mid ≤ last →
  (Z.to_nat (last - first) ≤ fuel)%nat →
  destroy_n first (last - first) m
    = destroy_n mid (last - mid) (destroy_n first (mid - first) m).2
  ∧ destroy fuel first last m
    = match destroy fuel first mid m with
      | Done m1 => destroy fuel mid last m1
      | Undefined => Undefined
      | Timeout => Timeout
      end.
Proof.
  intros Hlo Hhi Hfuel.
  assert (destroy_n first (last - first) m
          = destroy_n mid (last - mid) (destroy_n first (mid - first) m).2) as Hn.
  { destruct (Z_of_nat_complete (mid - first)) as [a Ha]; [lia|].
    replace (last - first) with (Z.of_nat a + (last - mid)) by lia.
    rewrite Ha, destroy_n_split_nat by lia. do 2 f_equal. lia. }
  split; [done|].
  rewrite (destroy_as_counted fuel first last), (destroy_as_counted fuel first mid) by lia.
  rewrite (destroy_as_counted fuel mid last) by lia. by rewrite Hn.
Qed.

End facts.

(** ** The statements at work on the sample memory *)

Import Samples.

Local Open Scope Z_scope.

Lemma handles_live_n (i : Z) : 0 ≤ i < 2 → is_Some (slots handles !! (0 + i)).
Proof.
  intros Hi. assert (i = 0 ∨ i = 1) as [-> | ->] by lia; vm_compute; eauto.
Qed.

Lemma handles_apart_n (i j : Z) : 0 ≤ i < 2 → 0 ≤ j < 2 → 0 + i ≠ 10 + j.
Proof. lia. Qed.

Lemma uninitialized_copy_n_copies_witness :
  ∃ m', uninitialized_copy_n 0 2 10 handles = Done (12, m')
    ∧ log m' = [Construct 10; Construct 11]
    ∧ slots m' !! 10 = Some 7 ∧ slots m' !! 11 = Some 8
    ∧ slots m' !! 0 = Some 7 ∧ slots m' !! 1 = Some 8.
Proof.
  destruct (uninitialized_copy_n_copies 0 2 10 handles handles_live_n)
    as (m' & Hrun & Hlog & Hvals).
  destruct (Hvals handles_apart_n) as [Hdst Hrest].
  exists m'. split; [exact Hrun|]. split; [exact Hlog|].
  pose proof (Hdst 0) as Hd0. pose proof (Hdst 1) as Hd1.
  pose proof (Hrest 0) as Hr0. pose proof (Hrest 1) as Hr1.
  repeat split; [apply Hd0|apply Hd1|apply Hr0|apply Hr1]; lia.
Defined.

Lemma construct_loops_fill_witness :
  0 ≤ 3 ∧ (Z.to_nat 3 ≤ 4)%nat
  ∧ ∃ md mz,
      uninitialized_default_construct_n 9 4 5 3 handles = Done (5 + 3, md)
      ∧ uninitialized_default_construct 9 4 5 (5 + 3) handles = Done md
      ∧ uninitialized_value_construct_n 0 4 5 3 handles = Done (5 + 3, mz)
      ∧ uninitialized_value_construct 0 4 5 (5 + 3) handles = Done mz
      ∧ log md = log handles ++ (Construct <$> seqZ 5 3)
      ∧ log mz = log handles ++ (Construct <$> seqZ 5 3)
      ∧ (∀ q, slots md !! q = if decide (5 ≤ q < 5 + 3) then Some 9 else slots handles !! q)
      ∧ (∀ q, slots mz !! q = if decide (5 ≤ q < 5 + 3) then Some 0 else slots handles !! q).
Proof.
  split; [lia|]. split; [vm_compute; lia|].
  apply (construct_loops_fill 9 0 4%nat 5 3 handles); [lia|vm_compute; lia].
Defined.

Lemma construct_then_destroy_witness :
  0 ≤ 3 ∧ (Z.to_nat 3 ≤ 3)%nat
  ∧ ∃ m1 m2,
      uninitialized_value_construct_n 0 3 5 3 handles = Done (5 + 3, m1)
      ∧ destroy_n 5 3 m1 = (5 + 3, m2)
      ∧ log m2 = log handles ++ (Construct <$> seqZ 5 3) ++ (Teardown <$> seqZ 5 3)
      ∧ (∀ q, slots m2 !! q = if decide (5 ≤ q < 5 + 3) then None else slots handles !! q)
      ∧ ((∀ q, 5 ≤ q < 5 + 3 → slots handles !! q = None) → slots m2 = slots handles).
Proof.
  split; [lia|]. split; [vm_compute; lia|].
  apply (construct_then_destroy 0 3%nat 5 3 handles); [lia|vm_compute; lia].
Defined.

Lemma move_then_destroy_relocates_witness :
  ∃ m1 m2,
    uninitialized_move_n emptied 0 2 10 handles = Done (IterPair 2 12, m1)
    ∧ destroy_n 0 2 m1 = (2, m2)
    ∧ log m2 = [Construct 10; Construct 11; Teardown 0; Teardown 1]
    ∧ slots m2 !! 10 = Some 7 ∧ slots m2 !! 11 = Some 8
    ∧ slots m2 !! 0 = None ∧ slots m2 !! 1 = None.
Proof.
  destruct (move_then_destroy_relocates emptied 0 2 10 handles handles_live_n handles_apart_n)
    as (m1 & m2 & Hrun & Hd & Hlog & Hdst & Hsrc & _).
  exists m1, m2. split; [exact Hrun|]. split; [exact Hd|]. split; [exact Hlog|].
  pose proof (Hdst 0) as Hd0. pose proof (Hdst 1) as Hd1.
  pose proof (Hsrc 0) as Hs0. pose proof (Hsrc 1) as Hs1.
  repeat split; [apply Hd0|apply Hd1|apply Hs0|apply Hs1]; lia.
Defined.

Lemma destroy_in_two_pieces_witness :
  0 ≤ 1 ∧ 1 ≤ 2 ∧ (Z.to_nat (2 - 0) ≤ 2)%nat
  ∧ destroy_n 0 (2 - 0) handles
    = destroy_n 1 (2 - 1) (destroy_n 0 (1 - 0) handles).2
  ∧ destroy 2 0 2 handles
    = match destroy 2 0 1 handles with
      | Done m1 => destroy 2 1 2 m1
      | Undefined => Undefined
      | Timeout => Timeout
      end.
Proof.
  do 2 (split; [lia|]). split; [vm_compute; lia|].
  apply (destroy_in_two_pieces 2%nat 0 1 2 handles); [lia|lia|vm_compute; lia].
Defined.

End RangeFacts.

(** * Facts about Activity 1 *)

Module Activity1Facts.
Import Activity1.

Local Open Scope Z_scope.

Lemma select_led_cases l s :
  (l = 1 ∧ select_led l s = set_leds true false false s)
  ∨ (l = 2 ∧ select_led l s = set_leds false true false s)
  ∨ (l = 3 ∧ select_led l s = set_leds false false true s)
  ∨ (l ≠ 1 ∧ l ≠ 2 ∧ l ≠ 3 ∧ select_led l s = s).
Proof.
  unfold select_led.
  destruct (Z.eqb_spec l 1); [by left|].
  destruct (Z.eqb_spec l 2); [by right; left|].
  destruct (Z.eqb_spec l 3); [by right; right; left|].
  by right; right; right.
Qed.

(** X24: [select_led(l)] turns on the LED numbered [l] and turns the two
    others off when [l] is 1, 2 or 3; for every other [l], 0 included, it
    leaves the LEDs as they are.  It changes nothing but LEDs, and
    selecting the same LED again changes nothing. *)
Theorem select_led_one_of_three l s :
  leds (select_led l s)
    = (if decide (l = 1) then (true, false, false)
       else if decide (l = 2) then (false, true, false)
       else if decide (l = 3) then (false, false, true)
       else leds s)
  ∧ (1 ≤ l ≤ 3 → lit (select_led l s) = 1%nat)
  ∧ (t (select_led l s), t2 (select_led l s), n (select_led l s), arr (select_led l s))
    = (t s, t2 s, n s, arr s)
  ∧ (button (select_led l s), button_debounce_timeout (select_led l s))
    = (button s, button_debounce_timeout s)
  ∧ select_led l (select_led l s) = select_led l s.
Proof.
  destruct (select_led_cases l s) as [[-> E]|[[-> E]|[[-> E]|(H1 & H2 & H3 & E)]]];
    rewrite ?E; repeat split; try done;
    try (by rewrite !decide_False by done); lia.
Qed.

Lemma lit_select_led l s : (lit s ≤ 1)%nat → (lit (select_led l s) ≤ 1)%nat.
Proof.
  intros Hs.
  destruct (select_led_cases l s) as [[_ ->]|[[_ ->]|[[_ ->]|(_ & _ & _ & ->)]]];
    cbn; lia.
Qed.

Lemma select_led_keeps_globals l s :
  (t (select_led l s) = t s ∧ t2 (select_led l s) = t2 s ∧ n (select_led l s) = n s)
  ∧ arr (select_led l s) = arr s.
Proof.
  by destruct (select_led_cases l s) as [[_ ->]|[[_ ->]|[[_ ->]|(_ & _ & _ & ->)]]].
Qed.

Lemma rem3_range z : 0 ≤ z → 1 ≤ Z.rem z 3 + 1 ≤ 3.
Proof. intros Hz. pose proof (Z.rem_bound_pos z 3 Hz). lia. Qed.

Lemma rem5_range z : 0 ≤ z → 0 ≤ Z.rem z 5 < 5.
Proof. intros Hz. pose proof (Z.rem_bound_pos z 5 Hz). lia. Qed.

Lemma int_add_in_range a b :
  - 2147483648 ≤ a + b < 2147483648 → int_add a b = Some (a + b).
Proof.
  intros Hab. unfold int_add. apply decide_True.
  by change (2 ^ 31) with 2147483648.
Qed.

Lemma onButtonPress_in_bounds s :
  0 ≤ n s < 5 →
  onButtonPress s
  = Some (Board (led1 s) (led2 s) (led3 s) (t s) (t2 s) (n s + 1)
                (<[Z.to_nat (n s) := t s]> (arr s)) None (Some OnButtonStopDebouncing)).
Proof.
  intros Hn. unfold onButtonPress, arr_write. rewrite decide_True by done.
  cbn [mbind option_bind]. by rewrite int_add_in_range by lia.
Qed.

Lemma onButtonPress_Some s s' :
  onButtonPress s = Some s' →
  0 ≤ n s < 5
  ∧ s' = Board (led1 s) (led2 s) (led3 s) (t s) (t2 s) (n s + 1)
               (<[Z.to_nat (n s) := t s]> (arr s)) None (Some OnButtonStopDebouncing).
Proof.
  unfold onButtonPress, arr_write, int_add.
  destruct (decide (0 ≤ n s < 5)) as [Hn|]; [|done]. cbn.
  destruct (decide (- 2 ^ 31 ≤ n s + 1 < 2 ^ 31)); [|done]. cbn.
  intros [= <-]. done.
Qed.

Lemma call_keeps_range c s s' :
  in_range s → call c s = Some s' → in_range s'.
Proof.
  intros (Ht & Ht2 & Hn & Hlen & Harr & Hlit) Hcall. destruct c; cbn in Hcall.
  - apply onButtonPress_Some in Hcall as [Hn' ->]. unfold in_range, lit in *. cbn.
    rewrite length_insert. repeat split; try done; try lia.
    apply Forall_insert; done.
  - injection Hcall as <-. by unfold in_range, lit in *.
Qed.

Lemma react_keeps_range e s s' :
  in_range s → react e s = Some s' → in_range s'.
Proof.
  intros Hs Hr. pose proof Hs as (Ht & Ht2 & Hn & Hlen & Harr & Hlit).
  destruct e; cbn in Hr.
  - unfold rising_edge in Hr. destruct (button s) as [c|].
    + by apply (call_keeps_range c s).
    + by injection Hr as <-.
  - unfold timeout_expires in Hr. destruct (button_debounce_timeout s) as [c|].
    + apply (call_keeps_range c _ _) in Hr; [done|]. by unfold in_range, lit in *.
    + by injection Hr as <-.
  - injection Hr as <-. unfold cycle_show.
    destruct (select_led_keeps_globals (t s) s) as ((E1 & E2 & E3) & E4).
    unfold in_range. rewrite E1, E2, E3, E4. repeat split; try done; try lia.
    by apply lit_select_led.
  - injection Hr as <-. unfold cycle_advance, in_range, lit in *. cbn.
    pose proof (rem3_range (t s)). repeat split; try done; lia.
  - unfold play_show, arr_read in Hr.
    destruct (decide (0 ≤ t2 s < 5)); [|done]. cbn in Hr.
    destruct (arr s !! Z.to_nat (t2 s)) as [v|]; [|done]. cbn in Hr.
    injection Hr as <-.
    destruct (select_led_keeps_globals v s) as ((E1 & E2 & E3) & E4).
    unfold in_range. rewrite E1, E2, E3, E4. repeat split; try done; try lia.
    by apply lit_select_led.
  - unfold play_advance, int_add in Hr.
    destruct (decide (- 2 ^ 31 ≤ t2 s + 1 < 2 ^ 31)); [|done]. cbn in Hr.
    injection Hr as <-. unfold in_range, lit in *. cbn.
    pose proof (rem5_range (t2 s + 1)). repeat split; try done; lia.
Qed.

Lemma power_on_in_range : in_range (attach_button power_on).
Proof.
  unfold in_range, lit. cbn. repeat split; try lia.
  repeat constructor; lia.
Qed.

(** X25: whatever the button and the timeout do, and however their
    callbacks fall between the statements of the loops of [main], as
    long as no step is undefined: [t] stays within 0..3, [t2] within
    0..4 and [n] within 0..5, [arr] keeps its five entries, each within
    0..3, and at most one LED is on. *)
Theorem globals_stay_in_range (es : list event) :
  ∀ s s', in_range s → reacts es s = Some s' → in_range s'.
Proof.
  induction es as [|e es IH]; intros s s' Hs Hrun; cbn in Hrun.
  - by injection Hrun as <-.
  - destruct (react e s) as [s1|] eqn:He; [|done].
    apply (IH s1); [|done]. by apply (react_keeps_range e s).
Qed.

(** X26: a press while [onButtonPress] is attached and [n] is within
    0..4 stores the current [t] at [arr[n]], leaves the other entries,
    adds one to [n] and detaches the callback, so that further presses
    change nothing; when the debounce interval ends the callback is
    attached again, and the timeout does not fire a second time. *)
Theorem press_records_then_debounces s :
  button s = Some OnButtonPress →
  0 ≤ n s < 5 →
  length (arr s) = 5%nat →
  ∃ s1 s2,
    rising_edge s = Some s1
    ∧ arr s1 !! Z.to_nat (n s) = Some (t s)
    ∧ (∀ i, i ≠ Z.to_nat (n s) → arr s1 !! i = arr s !! i)
    ∧ n s1 = n s + 1
    ∧ leds s1 = leds s ∧ t s1 = t s ∧ t2 s1 = t2 s
    ∧ button s1 = None
    ∧ rising_edge s1 = Some s1
    ∧ timeout_expires s1 = Some s2
    ∧ button s2 = Some OnButtonPress
    ∧ (n s2, arr s2, t s2, t2 s2, leds s2) = (n s1, arr s1, t s1, t2 s1, leds s1)
    ∧ timeout_expires s2 = Some s2.
Proof.
  intros Hb Hn Hlen. unfold rising_edge at 1. rewrite Hb. cbn [call].
  rewrite onButtonPress_in_bounds by done.
  eexists. eexists. split; [done|]. cbn.
  split; [apply list_lookup_insert_eq; lia|].
  split; [intros i Hi; by apply list_lookup_insert_ne|].
  repeat split.
Qed.

Lemma press_out_of_bounds s :
  button s = Some OnButtonPress → ¬ (0 ≤ n s < 5) → rising_edge s = None.
Proof.
  intros Hb Hn. unfold rising_edge. rewrite Hb. cbn.
  unfold onButtonPress, arr_write. by rewrite decide_False.
Qed.

Lemma press_and_settle_step s :
  button s = Some OnButtonPress →
  0 ≤ n s < 5 →
  reacts press_and_settle s
  = Some (Board (led1 s) (led2 s) (led3 s) (t s) (t2 s) (n s + 1)
                (<[Z.to_nat (n s) := t s]> (arr s)) (Some OnButtonPress) None).
Proof.
  intros Hb Hn. unfold press_and_settle. cbn [reacts react].
  unfold rising_edge. rewrite Hb. cbn [call].
  by rewrite onButtonPress_in_bounds by done.
Qed.

Lemma reacts_app es1 es2 s :
  reacts (es1 ++ es2) s
  = match reacts es1 s with Some s1 => reacts es2 s1 | None => None end.
Proof.
  revert s. induction es1 as [|e es1 IH]; intros s; cbn; [done|].
  destruct (react e s); [apply IH|done].
Qed.

(** X27: nothing keeps the button callback from running once [arr] is
    full.  Five presses, each followed by the end of its debounce
    interval, fill [arr] with the values [t] had and leave [n] at 5 with
    the callback attached; the next press writes [arr[5]], outside the
    array.  So does every press with the callback attached and [n]
    outside 0..4. *)
Theorem sixth_press_out_of_bounds s :
  button s = Some OnButtonPress →
  n s = 0 →
  length (arr s) = 5%nat →
  ∃ s5,
    reacts (press_and_settle ++ press_and_settle ++ press_and_settle
            ++ press_and_settle ++ press_and_settle) s = Some s5
    ∧ n s5 = 5
    ∧ arr s5 = replicate 5 (t s)
    ∧ button s5 = Some OnButtonPress
    ∧ rising_edge s5 = None
    ∧ ∀ s', button s' = Some OnButtonPress → ¬ (0 ≤ n s' < 5) → rising_edge s' = None.
Proof.
  intros Hb Hn Hlen.
  destruct s as [l1 l2 l3 t0 t20 n0 a b d]. cbn in Hb, Hn, Hlen. subst b n0.
  destruct a as [|a0 [|a1 [|a2 [|a3 [|a4 [|? ?]]]]]]; try done.
  do 4 (rewrite reacts_app, press_and_settle_step by (cbn; (done || lia));
        cbv beta iota;
        cbn [t t2 n arr led1 led2 led3 button button_debounce_timeout]).
  rewrite press_and_settle_step by (cbn; (done || lia)).
  cbn [t t2 n arr led1 led2 led3 button button_debounce_timeout].
  eexists. split; [done|]. split; [done|]. split; [done|]. split; [done|].
  split; [apply press_out_of_bounds; [done|cbn; lia]|].
  apply press_out_of_bounds.
Qed.

(** X28: [t=(t%3)+1] takes any [t] that is not negative into 1..3 and
    there goes round 1, 2, 3, 1, so that three steps bring the board
    back; [onCycleTicker] is the two statements of the cycling loop of
    [main], and shows the LED numbered [t] when [t] is within 1..3.
    [t2=(t2+1)%5] goes round 0..4: five steps bring the board back. *)
Theorem counters_go_round s :
  onCycleTicker s = cycle_advance (cycle_show s)
  ∧ (0 ≤ t s → 1 ≤ t (cycle_advance s) ≤ 3)
  ∧ (1 ≤ t s ≤ 3 →
     t (cycle_advance s) = (if decide (t s = 3) then 1 else t s + 1)
     ∧ cycle_advance (cycle_advance (cycle_advance s)) = s
     ∧ lit (cycle_show s) = 1%nat)
  ∧ (0 ≤ t2 s < 5 →
     (∃ s1, play_advance s = Some s1
            ∧ t2 s1 = (if decide (t2 s = 4) then 0 else t2 s + 1))
     ∧ reacts [PlayAdvance; PlayAdvance; PlayAdvance; PlayAdvance; PlayAdvance] s
       = Some s).
Proof.
  split; [|split; [|split]].
  - unfold onCycleTicker, cycle_advance, cycle_show.
    by destruct (select_led_keeps_globals (t s) s) as ((-> & -> & ->) & ->).
  - intros Ht. cbn. by apply rem3_range.
  - intros Ht. destruct s as [l1 l2 l3 t0 t20 n0 a b d]. cbn in *.
    assert (t0 = 1 ∨ t0 = 2 ∨ t0 = 3) as [->|[->| ->]] by lia; done.
  - intros Ht. destruct s as [l1 l2 l3 t0 t20 n0 a b d]. cbn in *.
    assert (t20 = 0 ∨ t20 = 1 ∨ t20 = 2 ∨ t20 = 3 ∨ t20 = 4)
      as [->|[->|[->|[->| ->]]]] by lia; (split; [by eexists|done]).
Qed.

(** X29: [onCycleTickerPattern] shows [arr[t]] (not [arr[t2]]) and
    advances only [t2]: as it never changes [t] or [arr], calling it
    again shows the same entry again, so the LEDs are as the first call
    left them. *)
Theorem pattern_ticker_repeats_one_entry s s1 :
  onCycleTickerPattern s = Some s1 →
  ∃ v s2,
    arr_read (t s) s = Some v
    ∧ leds s1 = leds (select_led v s)
    ∧ (t s1, arr s1) = (t s, arr s)
    ∧ t2 s1 = Z.rem (t2 s + 1) 5
    ∧ onCycleTickerPattern s1 = Some s2
    ∧ leds s2 = leds s1.
Proof.
  destruct s as [l1 l2 l3 t0 t20 n0 a b d].
  unfold onCycleTickerPattern, arr_read. cbn [t t2 arr]. intros Hrun.
  destruct (decide (0 ≤ t0 < 5)) as [Ht|]; [|done].
  destruct (a !! Z.to_nat t0) as [v|] eqn:Hv; [|done].
  cbn [mbind option_bind] in Hrun.
  destruct (int_add t20 1) as [t2'|] eqn:Hadd; [|done].
  cbn [mbind option_bind] in Hrun. injection Hrun as <-.
  unfold int_add in Hadd. destruct (decide (- 2 ^ 31 ≤ t20 + 1 < 2 ^ 31)); [|done].
  injection Hadd as <-.
  pose proof (Z.rem_bound_abs (t20 + 1) 5 ltac:(lia)) as Hrem.
  exists v. unfold select_led.
  destruct (v =? 1) eqn:E1; [|destruct (v =? 2) eqn:E2; [|destruct (v =? 3) eqn:E3]];
    cbn [set_leds led1 led2 led3 t t2 n arr button button_debounce_timeout leds];
    (eexists; split; [done|]; split; [done|]; split; [done|]; split; [done|];
     rewrite decide_True by done; rewrite Hv; cbn [mbind option_bind];
     rewrite int_add_in_range by lia; cbn [mbind option_bind];
     rewrite ?E1, ?E2, ?E3; split; done).
Qed.

(** ** The statements at work from power-on *)

Lemma select_led_one_of_three_witness :
  1 ≤ 2 ≤ 3
  ∧ leds (select_led 2 power_on) = (false, true, false)
  ∧ lit (select_led 2 power_on) = 1%nat.
Proof.
  destruct (select_led_one_of_three 2 power_on) as (Hleds & Hlit & _).
  split; [lia|]. split; [exact Hleds|]. apply Hlit. lia.
Defined.

Lemma globals_stay_in_range_witness :
  in_range (attach_button power_on)
  ∧ ∃ s', reacts [CycleShow; CycleAdvance; CycleShow; Press; Press; Expire;
                  CycleAdvance; PlayShow; PlayAdvance] (attach_button power_on) = Some s'
          ∧ in_range s'.
Proof.
  split; [apply power_on_in_range|]. eexists. split; [reflexivity|].
  apply (globals_stay_in_range
           [CycleShow; CycleAdvance; CycleShow; Press; Press; Expire;
            CycleAdvance; PlayShow; PlayAdvance] (attach_button power_on));
    [apply power_on_in_range|reflexivity].
Defined.

Lemma press_records_then_debounces_witness :
  button (attach_button power_on) = Some OnButtonPress
  ∧ 0 ≤ n (attach_button power_on) < 5
  ∧ length (arr (attach_button power_on)) = 5%nat
  ∧ ∃ s1 s2,
      rising_edge (attach_button power_on) = Some s1
      ∧ n s1 = 1
      ∧ button s1 = None
      ∧ rising_edge s1 = Some s1
      ∧ timeout_expires s1 = Some s2
      ∧ button s2 = Some OnButtonPress.
Proof.
  split; [reflexivity|]. split; [cbn; lia|]. split; [reflexivity|].
  destruct (press_records_then_debounces (attach_button power_on))
    as (s1 & s2 & H1 & _ & _ & Hn & _ & _ & _ & Hb & Hagain & Hexp & Hb2 & _);
    [reflexivity|cbn; lia|reflexivity|].
  exists s1, s2. repeat split; assumption.
Defined.

Lemma sixth_press_out_of_bounds_witness :
  button (attach_button power_on) = Some OnButtonPress
  ∧ n (attach_button power_on) = 0
  ∧ length (arr (attach_button power_on)) = 5%nat
  ∧ ∃ s5,
      reacts (press_and_settle ++ press_and_settle ++ press_and_settle
              ++ press_and_settle ++ press_and_settle) (attach_button power_on) = Some s5
      ∧ n s5 = 5
      ∧ rising_edge s5 = None.
Proof.
  do 3 (split; [reflexivity|]).
  destruct (sixth_press_out_of_bounds (attach_button power_on))
    as (s5 & Hrun & Hn & _ & _ & Hout & _); [reflexivity..|].
  exists s5. repeat split; assumption.
Defined.

Lemma counters_go_round_witness :
  1 ≤ t (cycle_advance power_on) ≤ 3
  ∧ 0 ≤ t2 power_on < 5
  ∧ cycle_advance (cycle_advance (cycle_advance (cycle_advance power_on)))
    = cycle_advance power_on
  ∧ reacts [PlayAdvance; PlayAdvance; PlayAdvance; PlayAdvance; PlayAdvance] power_on
    = Some power_on.
Proof.
  assert (1 ≤ t (cycle_advance power_on) ≤ 3) as Ht
    by (change (t (cycle_advance power_on)) with 1; lia).
  assert (0 ≤ t2 power_on < 5) as Ht2 by (change (t2 power_on) with 0; lia).
  do 2 (split; [assumption|]). split.
  - destruct (counters_go_round (cycle_advance power_on)) as (_ & _ & Hround & _).
    apply Hround. exact Ht.
  - destruct (counters_go_round power_on) as (_ & _ & _ & Hplay).
    apply Hplay. exact Ht2.
Defined.

(** On the recorded board [arr[t]] is 3 and [arr[t2]] is 2: the third
    LED is lit, and lit again by the second call. *)
Lemma pattern_ticker_repeats_one_entry_witness :
  reacts [CycleAdvance; CycleAdvance; Press; Expire; CycleAdvance; Press; Expire;
          CycleAdvance] (attach_button power_on) = Some Samples.recorded
  ∧ arr_read (t Samples.recorded) Samples.recorded = Some 3
  ∧ arr_read (t2 Samples.recorded) Samples.recorded = Some 2
  ∧ ∃ s1 s2,
      onCycleTickerPattern Samples.recorded = Some s1
      ∧ leds s1 = (false, false, true)
      ∧ t2 s1 = 1
      ∧ onCycleTickerPattern s1 = Some s2
      ∧ leds s2 = (false, false, true).
Proof.
  do 3 (split; [reflexivity|]). eexists.
  destruct (pattern_ticker_repeats_one_entry Samples.recorded _ eq_refl)
    as (v & s2 & Hv & Hleds & _ & Ht2 & Hagain & Hsame).
  injection Hv as <-.
  exists s2. split; [reflexivity|]. split; [exact Hleds|]. split; [exact Ht2|].
  split; [exact Hagain|]. exact (eq_trans Hsame Hleds).
Defined.

End Activity1Facts.
